(** * heredity: exact inference over a family pedigree

    A shallow embedding of [heredity.py]: the probability table [PROBS],
    [powerset], [joint_probability], [update], [normalize] and the
    enumeration loop of [main].

    Numbers.  The program computes with Python floats.  The embedding is
    written once, over an interface [Number] of the arithmetic the source
    uses, and read at two instances:
    - [float_Number]: IEEE 754 binary64 with round-to-nearest-even, which is
      what a Python float is; used to run the code on concrete inputs, and
      for the bounds that hold of the rounded values;
    - [Q_Number]: exact rationals; read beside the binary64 value of the
      test and beside the binary64 bound on [joint_probability], and used
      to run statements that hold for every arithmetic on small inputs.
    The statements that do not depend on the arithmetic are proved for
    every instance; the others are about the binary64 instance.

    Containers.  A Python dict is an insertion-ordered map with unique keys:
    it is an association list here ([dict]), iterated in list order.  A
    Python set of names is a [gset string]; [list(s)] is [elements s]. *)

From Stdlib Require Import ZArith QArith Floats Lia.
From stdpp Require Import base list strings gmap fin_sets sorting pretty.

#[local] Set Warnings "-clear-no-such-hyp".
Local Open Scope string_scope.

(** ** Numbers *)

Class Number (A : Type) := {
  (** the value of a decimal literal of the source, given as a fraction *)
  lit : Q -> A;
  nadd : A -> A -> A;
  nsub : A -> A -> A;
  nmul : A -> A -> A;
  (** [x / y] for [y] nonzero *)
  ndiv : A -> A -> A;
  (** [y == 0], the test under which [x / y] raises [ZeroDivisionError] *)
  is_zero : A -> bool
}.

Declare Scope num_scope.
Delimit Scope num_scope with num.
Infix "+" := nadd : num_scope.
Infix "-" := nsub : num_scope.
Infix "*" := nmul : num_scope.
Infix "/" := ndiv : num_scope.

#[export] Instance Q_Number : Number Q := {|
  lit q := q;
  nadd := Qplus;
  nsub := Qminus;
  nmul := Qmult;
  ndiv := Qdiv;
  is_zero q := Qeq_bool q 0
|}.

(** An integer below 2^53 is a binary64 value, and binary64 division is
    correctly rounded: [n / d] is the double nearest to the fraction, which
    is the double Python reads the literal as. *)
Definition float_of_Z (z : Z) : float := PrimFloat.of_uint63 (Uint63.of_Z z).

#[export] Instance float_Number : Number float := {|
  lit q := PrimFloat.div (float_of_Z (Qnum q)) (float_of_Z (Zpos (Qden q)));
  nadd := PrimFloat.add;
  nsub := PrimFloat.sub;
  nmul := PrimFloat.mul;
  ndiv := PrimFloat.div;
  is_zero x := PrimFloat.eqb x PrimFloat.zero
|}.

(** ** Data model *)

(** A dict with string keys, in insertion order. *)
Definition dict (V : Type) : Type := list (string * V).

Definition keys {V} (d : dict V) : list string := d.*1.

(** [d[k]]; [None] stands for [KeyError]. *)
Fixpoint dict_get {V} (d : dict V) (k : string) : option V :=
  match d with
  | [] => None
  | (k', v) :: d' => if decide (k' = k) then Some v else dict_get d' k
  end.

(** One row of the registry, as [load_data] builds it. *)
Record Person := {
  name : string;
  mother : option string;
  father : option string;
  trait : option bool
}.

Inductive gene_count := G0 | G1 | G2.

(** [probabilities[person]]: the "gene" dict with keys 0, 1, 2 and the
    "trait" dict with keys True, False. *)
Record Tally (A : Type) := {
  gene_0 : A;
  gene_1 : A;
  gene_2 : A;
  trait_True : A;
  trait_False : A
}.
Arguments gene_0 {A} _.
Arguments gene_1 {A} _.
Arguments gene_2 {A} _.
Arguments trait_True {A} _.
Arguments trait_False {A} _.
Arguments Build_Tally {A} _ _ _ _ _.

Inductive exn := ZeroDivisionError.

(** ** The program *)

Section Heredity.
Context {A : Type} `{Number A}.
Local Open Scope num_scope.

(** [PROBS]. *)
Definition PROBS_gene (n : gene_count) : A :=
  match n with
  | G2 => lit 0.01
  | G1 => lit 0.03
  | G0 => lit 0.96
  end.

Definition PROBS_trait (n : gene_count) (t : bool) : A :=
  match n, t with
  | G2, true => lit 0.65
  | G2, false => lit 0.35
  | G1, true => lit 0.56
  | G1, false => lit 0.44
  | G0, true => lit 0.01
  | G0, false => lit 0.99
  end.

Definition PROBS_mutation : A := lit 0.01.

(** *** [joint_probability] *)

Section JointProbability.
Variables one_gene two_genes have_trait : gset string.

(** Body of [for parent in parents] when the person has two genes. *)
Definition parent_passes (individual_probability : A) (parent : string) : A :=
  if decide (parent ∈ two_genes) then
    individual_probability * (lit 1 - PROBS_mutation)
  else if decide (parent ∈ one_gene) then
    individual_probability * lit 0.5
  else
    individual_probability * PROBS_mutation.

(** Body of [for parent in parents] when the person has no genes. *)
Definition parent_keeps (individual_probability : A) (parent : string) : A :=
  if decide (parent ∈ two_genes) then
    individual_probability * PROBS_mutation
  else if decide (parent ∈ one_gene) then
    individual_probability * lit 0.5
  else
    individual_probability * (lit 1 - PROBS_mutation).

(** The two running products of the one-gene branch, after the father
    and the mother have been looked at. *)
Definition father_not_mother (father mother : string) : A :=
  let fnm := lit 1 in
  let fnm :=
    if decide (father ∈ two_genes) then fnm * (lit 1 - PROBS_mutation)
    else if decide (father ∈ one_gene) then fnm * lit 0.5
    else fnm * PROBS_mutation in
  if decide (mother ∈ two_genes) then fnm * PROBS_mutation
  else if decide (mother ∈ one_gene) then fnm * lit 0.5
  else fnm * (lit 1 - PROBS_mutation).

Definition mother_not_father (father mother : string) : A :=
  let mnf := lit 1 in
  let mnf :=
    if decide (father ∈ two_genes) then mnf * PROBS_mutation
    else if decide (father ∈ one_gene) then mnf * lit 0.5
    else mnf * (lit 1 - PROBS_mutation) in
  if decide (mother ∈ two_genes) then mnf * (lit 1 - PROBS_mutation)
  else if decide (mother ∈ one_gene) then mnf * lit 0.5
  else mnf * PROBS_mutation.

(** [individual_probability] after the gene branch of the loop body,
    before the trait is looked at.  The result also records which of the
    three branches was taken. *)
Definition gene_branch (person : string) (r : Person) : gene_count * A :=
  let individual_probability := lit 1 in
  if decide (person ∈ two_genes) then
    (G2, match father r, mother r with
         | Some f, Some m => foldl parent_passes individual_probability [f; m]
         | _, _ => individual_probability * PROBS_gene G2
         end)
  else if decide (person ∈ one_gene) then
    (G1, match father r, mother r with
         | Some f, Some m =>
             individual_probability *
             (father_not_mother f m + mother_not_father f m)
         | _, _ => individual_probability * PROBS_gene G1
         end)
  else
    (G0, match father r, mother r with
         | Some f, Some m => foldl parent_keeps individual_probability [f; m]
         | _, _ => individual_probability * PROBS_gene G0
         end).

(** The value of [individual_probability] at the end of the loop body. *)
Definition individual_probability (person : string) (r : Person) : A :=
  let '(n, individual_probability) := gene_branch person r in
  individual_probability * PROBS_trait n (bool_decide (person ∈ have_trait)).

(** [for person in people]: the keys in order, each with
    [people[person]]. *)
Definition joint_probability (people : dict Person) : A :=
  foldl (fun probability '(person, r) =>
           probability * individual_probability person r)
        (lit 1) people.
End JointProbability.

(** *** [update] *)

(** The body of the loop of [update] for one person: [+= p] on one gene
    bucket, then on one trait bucket. *)
Definition update_person (one_gene two_genes have_trait : gset string)
    (p : A) (person : string) (t : Tally A) : Tally A :=
  let t :=
    if decide (person ∈ one_gene) then
      {| gene_0 := gene_0 t; gene_1 := gene_1 t + p; gene_2 := gene_2 t;
         trait_True := trait_True t; trait_False := trait_False t |}
    else if decide (person ∈ two_genes) then
      {| gene_0 := gene_0 t; gene_1 := gene_1 t; gene_2 := gene_2 t + p;
         trait_True := trait_True t; trait_False := trait_False t |}
    else
      {| gene_0 := gene_0 t + p; gene_1 := gene_1 t; gene_2 := gene_2 t;
         trait_True := trait_True t; trait_False := trait_False t |} in
  if decide (person ∈ have_trait) then
    {| gene_0 := gene_0 t; gene_1 := gene_1 t; gene_2 := gene_2 t;
       trait_True := trait_True t + p; trait_False := trait_False t |}
  else
    {| gene_0 := gene_0 t; gene_1 := gene_1 t; gene_2 := gene_2 t;
       trait_True := trait_True t; trait_False := trait_False t + p |}.

(** [update] mutates [probabilities] in place; the mapping after the call
    is returned.  The loop runs over the keys of a copy, and each key has
    one entry. *)
Definition update (probabilities : dict (Tally A))
    (one_gene two_genes have_trait : gset string) (p : A) : dict (Tally A) :=
  map (fun '(person, t) =>
         (person, update_person one_gene two_genes have_trait p person t))
      probabilities.

(** *** [normalize] *)

(** [gene_norm]: [0.0], then [+=] for 0, 1, 2 in that order. *)
Definition gene_norm (t : Tally A) : A :=
  lit 0 + gene_0 t + gene_1 t + gene_2 t.

Definition trait_norm (t : Tally A) : A := trait_True t + trait_False t.

(** The body of the loop of [normalize] for one person: the entry as the
    body leaves it, and the exception it raised, if any.  A division
    raises before it assigns. *)
Definition normalize_person (t : Tally A) : Tally A * option exn :=
  let gn := gene_norm t in
  if is_zero gn then (t, Some ZeroDivisionError)
  else
    let t :=
      {| gene_0 := gene_0 t / gn; gene_1 := gene_1 t / gn;
         gene_2 := gene_2 t / gn;
         trait_True := trait_True t; trait_False := trait_False t |} in
    let tn := trait_norm t in
    if is_zero tn then (t, Some ZeroDivisionError)
    else
      ({| gene_0 := gene_0 t; gene_1 := gene_1 t; gene_2 := gene_2 t;
          trait_True := trait_True t / tn;
          trait_False := trait_False t / tn |}, None).

(** [normalize] mutates [probabilities] in place: the mapping as the call
    leaves it, and the exception that ended it, if any. *)
Fixpoint normalize (probabilities : dict (Tally A))
    : dict (Tally A) * option exn :=
  match probabilities with
  | [] => ([], None)
  | (person, t) :: rest =>
      match normalize_person t with
      | (t', Some e) => ((person, t') :: rest, Some e)
      | (t', None) =>
          let '(rest', e) := normalize rest in ((person, t') :: rest', e)
      end
  end.

(** *** [powerset] *)

(** [itertools.combinations(s, r)]: the [r]-element subsequences of [s],
    in lexicographic order of positions. *)
Fixpoint combinations {E} (s : list E) (r : nat) : list (list E) :=
  match r, s with
  | O, _ => [[]]
  | S _, [] => []
  | S r', x :: s' => map (cons x) (combinations s' r') ++ combinations s' r
  end.

(** [itertools.chain.from_iterable] over the combinations of every size
    from 0 to [len(s)]. *)
Definition chain_combinations {E} (s : list E) : list (list E) :=
  concat (map (combinations s) (seq 0 (length s + 1))).

(** [powerset] after [s = list(s)]. *)
Definition powerset_list (s : list string) : list (gset string) :=
  map list_to_set (chain_combinations s).

Definition powerset (s : gset string) : list (gset string) :=
  powerset_list (elements s).

(** *** The enumeration of [main] *)

Definition zero_tally : Tally A :=
  {| gene_0 := lit 0; gene_1 := lit 0; gene_2 := lit 0;
     trait_True := lit 0; trait_False := lit 0 |}.

Definition initial_probabilities (people : dict Person) : dict (Tally A) :=
  map (fun '(person, _) => (person, zero_tally)) people.

(** [set(people)]. *)
Definition names (people : dict Person) : gset string :=
  list_to_set (keys people).

(** [fails_evidence].  Every name of [names] is a key of [people], so the
    lookup finds a row. *)
Definition fails_evidence (people : dict Person) (have_trait : gset string)
    : bool :=
  existsb (fun person =>
             match dict_get people person with
             | Some r =>
                 match trait r with
                 | Some b => negb (eqb b (bool_decide (person ∈ have_trait)))
                 | None => false
                 end
             | None => false
             end)
          (elements (names people)).

(** The two inner loops, for one [have_trait]. *)
Definition gene_loops (people : dict Person) (have_trait : gset string)
    (probabilities : dict (Tally A)) : dict (Tally A) :=
  foldl (fun probabilities one_gene =>
           foldl (fun probabilities two_genes =>
                    let p := joint_probability one_gene two_genes have_trait
                               people in
                    update probabilities one_gene two_genes have_trait p)
                 probabilities (powerset (names people ∖ one_gene)))
        probabilities (powerset (names people)).

(** The body of [for have_trait in powerset(names)]. *)
Definition trait_step (people : dict Person)
    (probabilities : dict (Tally A)) (have_trait : gset string)
    : dict (Tally A) :=
  if fails_evidence people have_trait then probabilities
  else gene_loops people have_trait probabilities.

(** [probabilities] when the outer loop of [main] ends. *)
Definition accumulate (people : dict Person) : dict (Tally A) :=
  foldl (trait_step people) (initial_probabilities people)
        (powerset (names people)).

(** [main] from the loaded registry to the call of [normalize]. *)
Definition main (people : dict Person) : dict (Tally A) * option exn :=
  normalize (accumulate people).

End Heredity.

(** ** [load_data]

    [csv.DictReader] turns each line of the file into a row; [load_data] is
    modelled from the rows on.  A row is taken with its four fields
    present, as the reader yields it for a full line. *)

Record Row := {
  row_name : string;
  row_mother : string;
  row_father : string;
  row_trait : string
}.

(** [d[k] = v]: the value replaced where the key is, the entry appended
    where it is not. *)
Fixpoint dict_set {V} (d : dict V) (k : string) (v : V) : dict V :=
  match d with
  | [] => [(k, v)]
  | (k', v') :: d' =>
      if decide (k' = k) then (k', v) :: d' else (k', v') :: dict_set d' k v
  end.

(** [field or None]: the empty string is falsy. *)
Definition or_None (field : string) : option string :=
  if decide (field = "") then None else Some field.

(** [True if field == "1" else False if field == "0" else None]. *)
Definition trait_of_field (field : string) : option bool :=
  if decide (field = "1") then Some true
  else if decide (field = "0") then Some false
  else None.

Definition person_of_row (row : Row) : Person :=
  {| name := row_name row;
     mother := or_None (row_mother row);
     father := or_None (row_father row);
     trait := trait_of_field (row_trait row) |}.

Definition load_data (rows : list Row) : dict Person :=
  foldl (fun data row => dict_set data (row_name row) (person_of_row row))
        [] rows.

(** ** The program over a store

    Python passes [people], the three sets and [probabilities] by reference:
    a callee can change them under its caller.  Here the same functions are
    written over the store that holds these objects, each statement of the
    source as a read or a write of the store. *)

Record Store (A : Type) := {
  st_people : dict Person;
  st_one_gene : gset string;
  st_two_genes : gset string;
  st_have_trait : gset string;
  st_probabilities : dict (Tally A)
}.
Arguments st_people {A} _.
Arguments st_one_gene {A} _.
Arguments st_two_genes {A} _.
Arguments st_have_trait {A} _.
Arguments st_probabilities {A} _.
Arguments Build_Store {A} _ _ _ _ _.

Definition Prog (A R : Type) : Type := Store A -> R * Store A.

Definition ret {A R} (x : R) : Prog A R := fun σ => (x, σ).

Definition bind {A R R'} (m : Prog A R) (k : R -> Prog A R') : Prog A R' :=
  fun σ => let '(x, σ') := m σ in k x σ'.

Notation "x <- m ;; k" := (bind m (fun x => k))
  (at level 100, m at next level, right associativity, only parsing).

(** [for x in l: acc = body(acc, x)]. *)
Fixpoint for_each {A X S} (l : list X) (acc : S) (body : S -> X -> Prog A S)
    : Prog A S :=
  match l with
  | [] => ret acc
  | x :: l' => acc' <- body acc x ;; for_each l' acc' body
  end.

(** [x in s], for the set [s] that [sel] picks. *)
Definition contains {A} (sel : Store A -> gset string) (x : string)
    : Prog A bool :=
  fun σ => (bool_decide (x ∈ sel σ), σ).

(** [for person in people], each key with [people[person]]. *)
Definition people_items {A} : Prog A (list (string * Person)) :=
  fun σ => (st_people σ, σ).

(** The keys of [probabilities.copy()]. *)
Definition probabilities_keys {A} : Prog A (list string) :=
  fun σ => (keys (st_probabilities σ), σ).

(** [probabilities[person]] replaced by [f] of it: the effect of a [+=] on
    an entry of the inner dicts. *)
Definition with_probabilities {A} (σ : Store A)
    (probabilities : dict (Tally A)) : Store A :=
  {| st_people := st_people σ; st_one_gene := st_one_gene σ;
     st_two_genes := st_two_genes σ; st_have_trait := st_have_trait σ;
     st_probabilities := probabilities |}.

Definition modify_tally {A} (person : string) (f : Tally A -> Tally A)
    : Prog A unit :=
  fun σ =>
    (tt, with_probabilities σ
           (map (fun '(k, t) => if decide (k = person) then (k, f t) else (k, t))
                (st_probabilities σ))).

Section Stateful.
Context {A : Type} `{Number A}.
Local Open Scope num_scope.

(** [if parent in two_genes: x *= a / elif parent in one_gene: x *= b /
    else: x *= c], for the one or two variables [x] of the branch. *)
Definition by_parent_copies {R} (parent : string) (two one none : R) : Prog A R :=
  in_two <- contains st_two_genes parent ;;
  if in_two then ret two
  else in_one <- contains st_one_gene parent ;;
       if in_one then ret one else ret none.

Definition has_trait_m (person : string) (n : gene_count)
    (individual_probability : A) : Prog A A :=
  in_trait <- contains st_have_trait person ;;
  if in_trait then ret (individual_probability * PROBS_trait n true)
  else ret (individual_probability * PROBS_trait n false).

(** The body of [for person in people]. *)
Definition person_m (probability : A) (item : string * Person) : Prog A A :=
  let '(person, r) := item in
  let individual_probability := lit 1 in
  in_two <- contains st_two_genes person ;;
  individual_probability <-
    (if in_two then
       individual_probability <-
         match father r, mother r with
         | Some f, Some m =>
             for_each [f; m] individual_probability (fun ip parent =>
               by_parent_copies parent
                 (ip * (lit 1 - PROBS_mutation)) (ip * lit 0.5)
                 (ip * PROBS_mutation))
         | _, _ => ret (individual_probability * PROBS_gene G2)
         end ;;
       has_trait_m person G2 individual_probability
     else
       in_one <- contains st_one_gene person ;;
       if in_one then
         individual_probability <-
           match father r, mother r with
           | Some f, Some m =>
               let fnm := lit 1 in
               let mnf := lit 1 in
               both <-
                 by_parent_copies f
                   (fnm * (lit 1 - PROBS_mutation), mnf * PROBS_mutation)
                   (fnm * lit 0.5, mnf * lit 0.5)
                   (fnm * PROBS_mutation, mnf * (lit 1 - PROBS_mutation)) ;;
               let '(fnm, mnf) := both in
               both <-
                 by_parent_copies m
                   (fnm * PROBS_mutation, mnf * (lit 1 - PROBS_mutation))
                   (fnm * lit 0.5, mnf * lit 0.5)
                   (fnm * (lit 1 - PROBS_mutation), mnf * PROBS_mutation) ;;
               let '(fnm, mnf) := both in
               ret (individual_probability * (fnm + mnf))
           | _, _ => ret (individual_probability * PROBS_gene G1)
           end ;;
         has_trait_m person G1 individual_probability
       else
         individual_probability <-
           match father r, mother r with
           | Some f, Some m =>
               for_each [f; m] individual_probability (fun ip parent =>
                 by_parent_copies parent
                   (ip * PROBS_mutation) (ip * lit 0.5)
                   (ip * (lit 1 - PROBS_mutation)))
           | _, _ => ret (individual_probability * PROBS_gene G0)
           end ;;
         has_trait_m person G0 individual_probability) ;;
  ret (probability * individual_probability).

Definition joint_probability_m : Prog A A :=
  items <- people_items ;;
  for_each items (lit 1) person_m.

(** [update], with [p] the probability passed. *)
Definition update_person_m (p : A) (_ : unit) (person : string) : Prog A unit :=
    in_one <- contains st_one_gene person ;;
    _ <- (if in_one then
            modify_tally person (fun t =>
              {| gene_0 := gene_0 t; gene_1 := gene_1 t + p; gene_2 := gene_2 t;
                 trait_True := trait_True t; trait_False := trait_False t |})
          else
            in_two <- contains st_two_genes person ;;
            if in_two then
              modify_tally person (fun t =>
                {| gene_0 := gene_0 t; gene_1 := gene_1 t; gene_2 := gene_2 t + p;
                   trait_True := trait_True t; trait_False := trait_False t |})
            else
              modify_tally person (fun t =>
                {| gene_0 := gene_0 t + p; gene_1 := gene_1 t; gene_2 := gene_2 t;
                   trait_True := trait_True t; trait_False := trait_False t |})) ;;
    in_trait <- contains st_have_trait person ;;
    if in_trait then
      modify_tally person (fun t =>
        {| gene_0 := gene_0 t; gene_1 := gene_1 t; gene_2 := gene_2 t;
           trait_True := trait_True t + p; trait_False := trait_False t |})
    else
      modify_tally person (fun t =>
        {| gene_0 := gene_0 t; gene_1 := gene_1 t; gene_2 := gene_2 t;
           trait_True := trait_True t; trait_False := trait_False t + p |}).

Definition update_m (p : A) : Prog A unit :=
  persons <- probabilities_keys ;;
  for_each persons tt (update_person_m p).

End Stateful.

(** ** Definitions used by the proofs *)

(** The subsequences of [s], by the textbook recursion; [powerset] lists the
    same ones in another order. *)
Fixpoint subsequences {E} (s : list E) : list (list E) :=
  match s with
  | [] => [[]]
  | x :: s' => map (cons x) (subsequences s') ++ subsequences s'
  end.

(** A probability: a rational between 0 and 1. *)
Definition unit_interval (q : Q) : Prop := (0 <= q /\ q <= 1)%Q.

(** The assignments the loops of [main] reach: for each [have_trait] that
    passes the evidence check, each [one_gene], each [two_genes] drawn from
    the remaining names. *)
Definition assignments (people : dict Person)
    : list (gset string * gset string * gset string) :=
  concat (map (fun have_trait =>
    concat (map (fun one_gene =>
      map (fun two_genes => (one_gene, two_genes, have_trait))
          (powerset (names people ∖ one_gene)))
      (powerset (names people))))
    (filter (fun have_trait => fails_evidence people have_trait = false)
            (powerset (names people)))).

(** One call of [update] with the probability of its assignment. *)
Definition feed {A} `{Number A} (people : dict Person)
    (probabilities : dict (Tally A))
    (a : gset string * gset string * gset string) : dict (Tally A) :=
  let '(one_gene, two_genes, have_trait) := a in
  update probabilities one_gene two_genes have_trait
         (joint_probability one_gene two_genes have_trait people).

(** [t'] is [t] with [p] added to one gene bucket and to one trait bucket,
    the other three buckets as they were. *)
Definition adds_to_one_bucket_each {A} `{Number A} (p : A) (t t' : Tally A)
    : Prop :=
  ((gene_0 t' = nadd (gene_0 t) p ∧ gene_1 t' = gene_1 t ∧ gene_2 t' = gene_2 t) ∨
   (gene_0 t' = gene_0 t ∧ gene_1 t' = nadd (gene_1 t) p ∧ gene_2 t' = gene_2 t) ∨
   (gene_0 t' = gene_0 t ∧ gene_1 t' = gene_1 t ∧ gene_2 t' = nadd (gene_2 t) p)) ∧
  ((trait_True t' = nadd (trait_True t) p ∧ trait_False t' = trait_False t) ∨
   (trait_True t' = trait_True t ∧ trait_False t' = nadd (trait_False t) p)).

(** A sequence of calls of [update] on one mapping. *)
Definition updates {A} `{Number A} (probabilities : dict (Tally A))
    (calls : list (gset string * gset string * gset string * A))
    : dict (Tally A) :=
  foldl (fun probabilities '(one_gene, two_genes, have_trait, p) =>
           update probabilities one_gene two_genes have_trait p)
        probabilities calls.

(** Each tally of [t] divided by the sum of its group, as [normalize]
    computes the sums. *)
Definition divided {A} `{Number A} (t : Tally A) : Tally A :=
  {| gene_0 := ndiv (gene_0 t) (gene_norm t);
     gene_1 := ndiv (gene_1 t) (gene_norm t);
     gene_2 := ndiv (gene_2 t) (gene_norm t);
     trait_True := ndiv (trait_True t) (trait_norm t);
     trait_False := ndiv (trait_False t) (trait_norm t) |}.

(** The entries of [probabilities] whose key is in [persons] updated, the
    others as they were: the mapping part of the way through [update]. *)
Definition update_some {A} `{Number A} (persons : list string) (p : A)
    (σ : Store A) : dict (Tally A) → dict (Tally A) :=
  map (fun '(k, t) =>
         if decide (k ∈ persons) then
           (k, update_person (st_one_gene σ) (st_two_genes σ)
                             (st_have_trait σ) p k t)
         else (k, t)).

(** *** Binary64

    The primitive floats are tied to their specification [SpecFloat] by the
    axioms of the library ([mul_spec], [leb_spec], [Prim2SF_valid]). *)

(** The record after [k] shifts of the mantissa [M]: the quotient, and no
    bit set aside when the division is exact. *)
Definition shifted (M k : Z) (mrs : shr_record) : Prop :=
  (shr_m mrs = M / 2 ^ k /\
   (M mod 2 ^ k = 0 -> shr_r mrs = false /\ shr_s mrs = false))%Z.

(** The mantissa [m] at exponent [e] is a number between 0 and 1. *)
Definition at_most_one (m e : Z) : Prop :=
  (e <= -52 /\ 0 <= m <= 2 ^ (- e))%Z.

(** The binary64 number 1. *)
Definition sf_one : spec_float := S754_finite false 4503599627370496 (-52).

Definition sf_unit (x : spec_float) : Prop :=
  SFleb (S754_zero false) x = true /\ SFleb x sf_one = true.

(** [0 <= x <= 1] on binary64 numbers. *)
Definition float_unit (x : float) : bool :=
  ((0 <=? x) && (x <=? 1))%float.

(** *** Definitions for the properties of the whole run *)

(** The registry agrees with the trait subset on every recorded trait. *)
Definition consistent (people : dict Person) (have_trait : gset string)
    : Prop :=
  ∀ person r b,
    dict_get people person = Some r → trait r = Some b →
    b = bool_decide (person ∈ have_trait).

(** The tally of one person after the calls of [update] that [main] makes
    on a list of assignments. *)
Definition person_tally {A} `{Number A} (people : dict Person)
    (person : string) (l : list (gset string * gset string * gset string))
    (t : Tally A) : Tally A :=
  foldl (fun t '(one_gene, two_genes, have_trait) =>
           update_person one_gene two_genes have_trait
             (joint_probability one_gene two_genes have_trait people) person t)
        t l.

(** What [joint_probability] reads of a row besides its key: the two
    parents when both are recorded. *)
Definition both_parents (r : Person) : option (string * string) :=
  match father r, mother r with
  | Some f, Some m => Some (f, m)
  | _, _ => None
  end.

(** [t] after the gene tallies were divided and before the trait tallies
    are: the entry [normalize] leaves when the trait sum is zero. *)
Definition genes_divided {A} `{Number A} (t : Tally A) : Tally A :=
  {| gene_0 := ndiv (gene_0 t) (gene_norm t);
     gene_1 := ndiv (gene_1 t) (gene_norm t);
     gene_2 := ndiv (gene_2 t) (gene_norm t);
     trait_True := trait_True t; trait_False := trait_False t |}.

(** *** Definitions for the factors and the sums of the tallies *)

(** The loop of [joint_probability] from a later iteration on: the rows
    still to visit, with [probability] as the rows before left it. *)
Definition joint_probability_from {A} `{Number A}
    (one_gene two_genes have_trait : gset string) (probability : A)
    (people : dict Person) : A :=
  foldl (fun probability '(person, r) =>
           nmul probability
                (individual_probability one_gene two_genes have_trait person r))
        probability people.

(** The factor the code multiplies in for a parent who hands the gene
    down: [1 - mutation] with two copies, [0.5] with one, [mutation] with
    none. *)
Definition transmits {A} `{Number A} (one_gene two_genes : gset string)
    (parent : string) : A :=
  if decide (parent ∈ two_genes) then nsub (lit 1) PROBS_mutation
  else if decide (parent ∈ one_gene) then lit 0.5
  else PROBS_mutation.

(** The factor the code multiplies in for a parent who does not hand the
    gene down: [mutation] itself for a parent with two copies, and one
    minus what the parent [transmits] otherwise. *)
Definition withholds {A} `{Number A} (one_gene two_genes : gset string)
    (parent : string) : A :=
  if decide (parent ∈ two_genes) then PROBS_mutation
  else nsub (lit 1) (transmits one_gene two_genes parent).

(** The sum a run of [+=] from zero leaves: [((0 + x1) + x2) + ...]. *)
Definition sum_left {A} `{Number A} (l : list A) : A := foldl nadd (lit 0) l.

(** The probabilities of the calls whose three sets satisfy [P], in the
    order of the calls. *)
Definition calls_where {A}
    (P : gset string * gset string * gset string → Prop)
    `{!∀ a, Decision (P a)}
    (calls : list (gset string * gset string * gset string * A)) : list A :=
  (filter (λ c, P c.1) calls).*2.

(** The tally of a person after [calls] on the zero tally: each bucket
    holds the probabilities of the calls that picked it, added from zero in
    the order of the calls. *)
Definition tally_of_calls {A} `{Number A} (person : string)
    (calls : list (gset string * gset string * gset string * A)) : Tally A :=
  {| gene_0 :=
       sum_left
         (calls_where (λ a, (person ∉ a.1.1) ∧ (person ∉ a.1.2)) calls);
     gene_1 := sum_left (calls_where (λ a, person ∈ a.1.1) calls);
     gene_2 :=
       sum_left
         (calls_where (λ a, (person ∉ a.1.1) ∧ (person ∈ a.1.2)) calls);
     trait_True := sum_left (calls_where (λ a, person ∈ a.2) calls);
     trait_False := sum_left (calls_where (λ a, person ∉ a.2) calls) |}.

(** The calls of [update] that [main] makes: one for each assignment, with
    its joint probability. *)
Definition calls_of_main {A} `{Number A} (people : dict Person)
    : list (gset string * gset string * gset string * A) :=
  map (λ a, (a, joint_probability a.1.1 a.1.2 a.2 people))
      (assignments people).

(** A registry of [n] persons without parents or recorded trait, each
    named by its index in decimal. *)
Definition founder (person : string) : Person :=
  {| name := person; mother := None; father := None; trait := None |}.

Definition crowd (n : nat) : dict Person :=
  map (λ i, let person := pretty i in (person, founder person)) (seq 0 n).

(** [|x - 1| <= 1e-9] on binary64 numbers. *)
Definition near_one (x : float) : bool :=
  PrimFloat.leb (PrimFloat.abs (PrimFloat.sub x 1)) (lit 0.000000001).

(** A binary64 number that is positive and finite. *)
Definition positive_finite (x : float) : bool :=
  ((0 <? x) && (x <? infinity))%float.

(** ** The test of the repository *)

Definition test_people : dict Person :=
  [ ("Harry", {| name := "Harry"; mother := Some "Lily"; father := Some "James";
                 trait := None |});
    ("James", {| name := "James"; mother := None; father := None;
                 trait := Some true |});
    ("Lily", {| name := "Lily"; mother := None; father := None;
                trait := Some false |}) ].

(** The float literals of the source are the values [lit] gives. *)
Example float_literals :
  (lit 0.01 = 0x1.47ae147ae147bp-7 /\ lit 0.99 = 0x1.fae147ae147aep-1 /\
   lit 0.5 = 0.5 /\ lit 1 = 1 /\
   lit 0.0026643247488 = 0x1.5d37e752f4357p-9)%float.
Proof. vm_compute. repeat split; reflexivity. Qed.

(** C1: on the three-person registry of the test, with Harry carrying one
    copy, James two and only James showing the trait, [joint_probability] is
    0.0026643247488: the binary64 run returns the double that literal
    denotes, and the exact value is that decimal. *)
Theorem joint_probability_test :
  joint_probability (A := float) {["Harry"]} {["James"]} {["James"]} test_people
    = lit 0.0026643247488
  /\ joint_probability (A := Q) {["Harry"]} {["James"]} {["James"]} test_people
    == 0.0026643247488.
Proof. split; vm_compute; reflexivity. Qed.

(** ** [powerset] *)

Section Combinations.
Context {E : Type}.
Implicit Types (s c : list E) (r : nat).

Lemma combinations_0 s : combinations s 0 = [[]].
Proof. by destruct s. Qed.

Lemma elem_of_combinations s r c :
  c ∈ combinations s r ↔ c `sublist_of` s ∧ length c = r.
Proof.
  revert r c. induction s as [|x s IH]; intros [|r] c; simpl.
  - rewrite list_elem_of_singleton, sublist_nil_r.
    split; [by intros ->|by intros [-> _]].
  - rewrite elem_of_nil, sublist_nil_r. split; [done|by intros [-> ?]].
  - rewrite list_elem_of_singleton. split.
    + intros ->. split; [apply sublist_nil_l|done].
    + intros [_ Hl]. by destruct c.
  - rewrite elem_of_app, list_elem_of_fmap, sublist_cons_r. split.
    + intros [(c' & -> & Hc')|Hc].
      * apply IH in Hc' as [? <-]. split; [right; eauto|done].
      * apply IH in Hc as [? ?]. split; [by left|done].
    + intros [[Hc|(c' & -> & Hc')] Hl].
      * right. by apply IH.
      * left. exists c'. split; [done|]. apply IH. simpl in Hl. split; [done|lia].
Qed.

Lemma NoDup_combinations s r : NoDup s → NoDup (combinations s r).
Proof.
  revert r. induction s as [|x s IH]; intros [|r] Hs; simpl.
  - apply NoDup_singleton.
  - apply NoDup_nil_2.
  - apply NoDup_singleton.
  - apply NoDup_cons in Hs as [Hx Hs]. apply NoDup_app. split_and!.
    + apply (NoDup_fmap_2 _). by apply IH.
    + intros c (c' & -> & _)%list_elem_of_fmap [Hc _]%elem_of_combinations.
      apply Hx. apply (sublist_subseteq _ _ Hc). by left.
    + by apply IH.
Qed.

Lemma elem_of_chain_combinations s c :
  c ∈ chain_combinations s ↔ c `sublist_of` s.
Proof.
  unfold chain_combinations. rewrite list_elem_of_In, in_concat. split.
  - intros (cs & Hcs & Hc). apply in_map_iff in Hcs as (r & <- & _).
    apply list_elem_of_In, elem_of_combinations in Hc. tauto.
  - intros Hc. exists (combinations s (length c)). split.
    + apply in_map, in_seq. apply sublist_length in Hc. lia.
    + by apply list_elem_of_In, elem_of_combinations.
Qed.

Lemma NoDup_concat_by_length (f : nat → list (list E)) (rs : list nat) :
  NoDup rs → (∀ r, NoDup (f r)) → (∀ r c, c ∈ f r → length c = r) →
  NoDup (concat (map f rs)).
Proof.
  intros Hrs Hf Hlen. induction Hrs as [|r rs Hr _ IH]; simpl.
  - apply NoDup_nil_2.
  - apply NoDup_app. split_and!; [done| |done].
    intros c Hc Hc'. apply list_elem_of_In, in_concat in Hc' as (cs & Hcs & Hc').
    apply in_map_iff in Hcs as (r' & <- & Hr').
    apply list_elem_of_In, Hlen in Hc'. apply Hlen in Hc.
    apply Hr. apply list_elem_of_In. congruence.
Qed.

Lemma NoDup_chain_combinations s : NoDup s → NoDup (chain_combinations s).
Proof.
  intros Hs. apply NoDup_concat_by_length.
  - apply NoDup_ListNoDup, List.seq_NoDup.
  - intros r. by apply NoDup_combinations.
  - intros r c Hc. by apply elem_of_combinations in Hc as [_ ?].
Qed.

Lemma length_subsequences s : length (subsequences s) = 2 ^ length s.
Proof.
  induction s as [|x s IH]; [done|].
  cbn [subsequences length]. rewrite length_app, length_map, IH, Nat.pow_succ_r'.
  lia.
Qed.

Lemma elem_of_subsequences s c : c ∈ subsequences s ↔ c `sublist_of` s.
Proof.
  revert c. induction s as [|x s IH]; intros c; simpl.
  - by rewrite list_elem_of_singleton, sublist_nil_r.
  - rewrite elem_of_app, list_elem_of_fmap, sublist_cons_r, IH.
    setoid_rewrite IH. split.
    + intros [(c' & -> & ?)|?]; eauto.
    + intros [?|(c' & -> & ?)]; eauto.
Qed.

Lemma NoDup_subsequences s : NoDup s → NoDup (subsequences s).
Proof.
  induction s as [|x s IH]; intros Hs; simpl.
  - apply NoDup_singleton.
  - apply NoDup_cons in Hs as [Hx Hs]. apply NoDup_app. split_and!.
    + apply (NoDup_fmap_2 _). by apply IH.
    + intros c (c' & -> & _)%list_elem_of_fmap Hc%elem_of_subsequences.
      apply Hx. apply (sublist_subseteq _ _ Hc). by left.
    + by apply IH.
Qed.

Lemma length_chain_combinations s :
  NoDup s → length (chain_combinations s) = 2 ^ length s.
Proof.
  intros Hs. rewrite <-length_subsequences. apply Permutation_length.
  apply NoDup_Permutation.
  - by apply NoDup_chain_combinations.
  - by apply NoDup_subsequences.
  - intros c. by rewrite elem_of_chain_combinations, elem_of_subsequences.
Qed.
End Combinations.

(** Two subsequences of a duplicate-free list with the same elements are the
    same list: [set(...)] maps distinct combinations to distinct sets. *)
Lemma sublist_list_to_set_inj (s c1 c2 : list string) :
  NoDup s → c1 `sublist_of` s → c2 `sublist_of` s →
  list_to_set (C := gset string) c1 = list_to_set c2 → c1 = c2.
Proof.
  intros Hs. revert c1 c2. induction Hs as [|x s Hx Hs IH]; intros c1 c2 H1 H2 Heq.
  - apply sublist_nil_r in H1, H2. congruence.
  - apply sublist_cons_r in H1 as [H1|(c1' & -> & H1)];
      apply sublist_cons_r in H2 as [H2|(c2' & -> & H2)].
    + by apply IH.
    + exfalso. apply Hx, (sublist_subseteq _ _ H1).
      apply (elem_of_list_to_set (C := gset string)). rewrite Heq. set_solver.
    + exfalso. apply Hx, (sublist_subseteq _ _ H2).
      apply (elem_of_list_to_set (C := gset string)). rewrite <-Heq. set_solver.
    + f_equal. apply IH; [done..|].
      assert (x ∉ c1') by (intros ?; by apply Hx, (sublist_subseteq _ _ H1)).
      assert (x ∉ c2') by (intros ?; by apply Hx, (sublist_subseteq _ _ H2)).
      simpl in Heq. set_solver.
Qed.

Lemma elem_of_powerset_list (s : list string) (X : gset string) :
  X ∈ powerset_list s ↔ ∃ c, X = list_to_set c ∧ c `sublist_of` s.
Proof.
  unfold powerset_list. rewrite list_elem_of_fmap.
  by setoid_rewrite elem_of_chain_combinations.
Qed.

Lemma elem_of_powerset (S X : gset string) : X ∈ powerset S ↔ X ⊆ S.
Proof.
  unfold powerset. rewrite elem_of_powerset_list. split.
  - intros (c & -> & Hc) x Hx%elem_of_list_to_set.
    apply elem_of_elements. by apply (sublist_subseteq _ _ Hc).
  - intros HX. exists (filter (λ x, x ∈ X) (elements S)). split.
    + apply set_eq. intros x.
      rewrite elem_of_list_to_set, list_elem_of_filter, elem_of_elements.
      set_solver.
    + apply sublist_filter.
Qed.

Lemma NoDup_powerset (S : gset string) : NoDup (powerset S).
Proof.
  unfold powerset, powerset_list. apply NoDup_fmap_2_strong.
  - intros c1 c2 H1%elem_of_chain_combinations H2%elem_of_chain_combinations.
    apply (sublist_list_to_set_inj (elements S)); [apply NoDup_elements|done..].
  - apply NoDup_chain_combinations, NoDup_elements.
Qed.

Lemma length_powerset (S : gset string) : length (powerset S) = 2 ^ size S.
Proof.
  unfold powerset, powerset_list. rewrite length_map.
  apply length_chain_combinations, NoDup_elements.
Qed.

(** C3: [powerset s] lists 2^n pairwise distinct sets for a set [s] of
    size n; they are the subsets of [s], the empty set and [s] among them;
    and on the empty set the list is the empty set alone. *)
Theorem powerset_all_subsets (S : gset string) :
  length (powerset S) = 2 ^ size S ∧
  NoDup (powerset S) ∧
  (∀ X, X ∈ powerset S ↔ X ⊆ S) ∧
  ∅ ∈ powerset S ∧
  S ∈ powerset S ∧
  powerset ∅ = [∅].
Proof.
  split_and!.
  - apply length_powerset.
  - apply NoDup_powerset.
  - apply elem_of_powerset.
  - apply elem_of_powerset. set_solver.
  - by apply elem_of_powerset.
  - unfold powerset. by rewrite elements_empty.
Qed.

(** ** [joint_probability] in exact arithmetic *)

Section Exact.
Local Open Scope Q_scope.
Implicit Types (one_gene two_genes have_trait : gset string).

Lemma unit_interval_mult (a b : Q) :
  unit_interval a → unit_interval b → unit_interval (a * b).
Proof.
  intros [Ha0 Ha1] [Hb0 Hb1]. split.
  - by apply Qmult_le_0_compat.
  - apply Qle_trans with (1 * b).
    + by apply Qmult_le_compat_r.
    + by rewrite Qmult_1_l.
Qed.

Lemma unit_interval_closed (q : Q) :
  Qle_bool 0 q && Qle_bool q 1 = true → unit_interval q.
Proof.
  intros [? ?]%andb_true_iff. split; by apply Qle_bool_iff.
Qed.

Ltac closed_unit := apply unit_interval_closed; vm_compute; reflexivity.

Lemma PROBS_trait_unit n b : unit_interval (PROBS_trait n b).
Proof. destruct n, b; closed_unit. Qed.

Lemma gene_branch_unit one_gene two_genes person r :
  unit_interval (gene_branch one_gene two_genes person r).2.
Proof.
  unfold gene_branch, father_not_mother, mother_not_father.
  destruct (father r) as [f|], (mother r) as [m|]; simpl;
    unfold parent_passes, parent_keeps;
    repeat case_decide; simpl; closed_unit.
Qed.

Lemma individual_probability_unit one_gene two_genes have_trait person r :
  unit_interval (individual_probability one_gene two_genes have_trait person r).
Proof.
  unfold individual_probability.
  pose proof (gene_branch_unit one_gene two_genes person r) as Hg.
  destruct (gene_branch one_gene two_genes person r) as [n q].
  apply unit_interval_mult; [done|apply PROBS_trait_unit].
Qed.

Lemma joint_probability_unit one_gene two_genes have_trait people :
  unit_interval (joint_probability one_gene two_genes have_trait people).
Proof.
  unfold joint_probability.
  assert (unit_interval (lit 1)) as Hacc by closed_unit.
  revert Hacc. generalize (lit 1 : Q).
  induction people as [|[person r] people IH]; intros acc Hacc; [done|].
  simpl. apply IH, unit_interval_mult; [done|].
  apply individual_probability_unit.
Qed.

End Exact.

(** ** [joint_probability] in binary64 *)

Section Binary64.
Local Open Scope Z_scope.

Lemma digits2_pos_bounds (m : positive) :
  2 ^ (Zpos (digits2_pos m) - 1) <= Zpos m < 2 ^ Zpos (digits2_pos m).
Proof.
  induction m as [m IH|m IH|]; cbn [digits2_pos].
  - rewrite Pos2Z.inj_succ.
    replace (Z.succ (Zpos (digits2_pos m)) - 1) with (Z.succ (Zpos (digits2_pos m) - 1)) by lia.
    rewrite !Z.pow_succ_r by lia. lia.
  - rewrite Pos2Z.inj_succ.
    replace (Z.succ (Zpos (digits2_pos m)) - 1) with (Z.succ (Zpos (digits2_pos m) - 1)) by lia.
    rewrite !Z.pow_succ_r by lia. lia.
  - cbn. lia.
Qed.

(** A mantissa of value at most [2 ^ k] has at most [k + 1] digits. *)
Lemma Zdigits2_le (m k : Z) : 0 <= k -> 0 <= m <= 2 ^ k -> Zdigits2 m <= k + 1.
Proof.
  intros Hk [Hm0 Hm]. destruct m as [|m|m]; cbn [Zdigits2]; [lia| |lia].
  pose proof (digits2_pos_bounds m) as [Hlo _].
  destruct (Z_lt_le_dec k (Zpos (digits2_pos m) - 1)) as [Hlt|]; [|lia].
  exfalso. assert (2 ^ (k + 1) <= 2 ^ (Zpos (digits2_pos m) - 1))
    by (apply Z.pow_le_mono_r; lia).
  rewrite Z.pow_add_r in * by lia. lia.
Qed.

Lemma iter_pos_invariant {T} (f : T -> T) (P : Z -> T -> Prop) :
  (forall k x, 0 <= k -> P k x -> P (k + 1) (f x)) ->
  forall p k x, 0 <= k -> P k x -> P (k + Zpos p) (SpecFloat.iter_pos f p x).
Proof.
  intros Hstep. induction p as [p IH|p IH|]; intros k x Hk HP; cbn [SpecFloat.iter_pos].
  - replace (k + Zpos p~1) with (k + 1 + Zpos p + Zpos p) by lia.
    apply IH; [lia|]. apply IH; [lia|]. by apply Hstep.
  - replace (k + Zpos p~0) with (k + Zpos p + Zpos p) by lia.
    apply IH; [lia|]. by apply IH.
  - by apply Hstep.
Qed.

Lemma shr_1_shifted (M k : Z) (mrs : shr_record) :
  0 <= M -> 0 <= k -> shifted M k mrs -> shifted M (k + 1) (shr_1 mrs).
Proof.
  intros HM Hk [Hm Hex]. destruct mrs as [m r s]. cbn [shr_m shr_r shr_s] in *.
  assert (0 < 2 ^ k) as Hpow by (apply Z.pow_pos_nonneg; lia).
  assert (0 <= m) as Hm0 by (subst m; apply Z.div_pos; lia).
  assert (M / 2 ^ (k + 1) = m / 2) as Hdiv.
  { rewrite Z.pow_add_r, Z.pow_1_r by lia. rewrite <-Z.div_div by lia. by rewrite Hm. }
  assert (M mod 2 ^ (k + 1) = 0 -> M mod 2 ^ k = 0 /\ m mod 2 = 0) as Hmod.
  { rewrite Z.pow_add_r, Z.pow_1_r by lia. intros H0.
    rewrite Z.rem_mul_r in H0 by lia. rewrite <-Hm in H0.
    pose proof (Z.mod_pos_bound M (2 ^ k) Hpow).
    pose proof (Z.mod_pos_bound m 2). nia. }
  unfold shifted. rewrite Hdiv.
  destruct m as [|[p|p|]|p]; cbn [shr_1 shr_m shr_r shr_s]; try lia.
  - split; [done|]. intros [H1 _]%Hmod. by apply Hex in H1 as [-> ->].
  - split; [apply (Z.div_unique _ _ _ 1); lia|].
    intros [_ H2]%Hmod. exfalso.
    rewrite <-(Z.mod_unique (Zpos p~1) 2 (Zpos p) 1) in H2; lia.
  - split; [apply (Z.div_unique _ _ _ 0); lia|].
    intros [H1 _]%Hmod. by apply Hex in H1 as [-> ->].
  - split; [done|]. intros [_ H2]%Hmod. done.
Qed.

Lemma at_most_one_digits m e : at_most_one m e -> Zdigits2 m + e <= 1.
Proof.
  intros [He Hm]. assert (Zdigits2 m <= - e + 1); [|lia].
  apply Zdigits2_le; [lia|done].
Qed.

Lemma fexp_at_most_one m e :
  at_most_one m e -> fexp prec emax (Zdigits2 m + e) <= -52.
Proof.
  intros Hm%at_most_one_digits. unfold fexp, SpecFloat.emin, prec, emax. lia.
Qed.

(** Shifting the mantissa to the exponent of the format, and rounding it to
    nearest even, keep the number between 0 and 1. *)
Lemma shr_fexp_at_most_one (M E : Z) :
  at_most_one M E ->
  at_most_one (shr_m (shr_fexp prec emax M E loc_Exact).1)
              (shr_fexp prec emax M E loc_Exact).2 /\
  at_most_one (round_nearest_even
                 (shr_m (shr_fexp prec emax M E loc_Exact).1)
                 (loc_of_shr_record (shr_fexp prec emax M E loc_Exact).1))
              (shr_fexp prec emax M E loc_Exact).2.
Proof.
  intros HME. pose proof (fexp_at_most_one M E HME) as Hfexp.
  destruct HME as [HE HM]. unfold shr_fexp, shr. cbn [shr_record_of_loc].
  destruct (fexp prec emax (Zdigits2 M + E) - E) as [|n|n] eqn:Hn;
    cbn [fst snd shr_m loc_of_shr_record round_nearest_even]; [done| |done].
  pose proof (iter_pos_invariant shr_1 (shifted M)
                (fun k x => shr_1_shifted M k x (proj1 HM)) n 0
                {| shr_m := M; shr_r := false; shr_s := false |}) as Hshift.
  destruct Hshift as [Hm Hexact]; [lia| |].
  { split; [cbn; by rewrite Z.div_1_r|done]. }
  rewrite Z.add_0_l in Hm, Hexact.
  set (mrs := SpecFloat.iter_pos shr_1 n _) in *. clearbody mrs.
  set (e' := E + Z.pos n) in *.
  assert (e' <= -52) as He' by lia.
  assert (2 ^ (- E) = 2 ^ (- e') * 2 ^ Zpos n) as Hsplit.
  { rewrite <-Z.pow_add_r by lia. f_equal. lia. }
  assert (0 < 2 ^ (- e')) by (apply Z.pow_pos_nonneg; lia).
  assert (0 < 2 ^ Zpos n) as Hb by (apply Z.pow_pos_nonneg; lia).
  pose proof (Z.div_mod M (2 ^ Zpos n)) as Hdm.
  pose proof (Z.mod_pos_bound M (2 ^ Zpos n) Hb) as Hrem.
  assert (0 <= shr_m mrs <= 2 ^ (- e')) as Hfloor by (rewrite Hm; nia).
  split; [done|]. split; [done|].
  destruct mrs as [m [|] [|]]; cbn [shr_m shr_r shr_s loc_of_shr_record
    round_nearest_even] in *; [| | |lia].
  all: assert (M mod 2 ^ Zpos n <> 0) as Hne
         by (intros [??]%Hexact; discriminate).
  all: assert (m < 2 ^ (- e')) by (rewrite Hm; nia).
  all: try destruct (Z.even m); lia.
Qed.

Lemma pow2_52 : 2 ^ 52 = 4503599627370496.
Proof. vm_compute. reflexivity. Qed.

Lemma compare_cont_not_Gt (m c : positive) :
  match Pos.compare_cont Eq m c with Gt => false | _ => true end = true <->
  Zpos m <= Zpos c.
Proof.
  change (Pos.compare_cont Eq m c) with (m ?= c)%positive.
  destruct (Pos.compare_spec m c); split; (discriminate || lia || done).
Qed.

Lemma sf_unit_finite s m e :
  valid_binary (S754_finite s m e) = true ->
  sf_unit (S754_finite s m e) ->
  s = false /\ at_most_one (Zpos m) e.
Proof.
  intros Hvalid [H0 H1]. destruct s; [discriminate|]. split; [done|].
  cbn in Hvalid. apply andb_prop in Hvalid as [Hcanon _].
  unfold canonical_mantissa, fexp, SpecFloat.emin, prec, emax in Hcanon.
  apply Z.eqb_eq in Hcanon.
  pose proof (digits2_pos_bounds m) as [_ Hhi].
  assert (Zpos m < 2 ^ 53).
  { eapply Z.lt_le_trans; [exact Hhi|]. apply Z.pow_le_mono_r; lia. }
  unfold SFleb, sf_one, SFcompare in H1.
  destruct (Z.compare_spec e (-52)) as [->|Hlt|Hgt]; [| |discriminate].
  - apply compare_cont_not_Gt in H1.
    split; [lia|]. split; [lia|].
    replace (- -52) with 52 by lia. rewrite pow2_52. exact H1.
  - split; [lia|]. split; [lia|].
    assert (2 ^ 53 <= 2 ^ (- e)) by (apply Z.pow_le_mono_r; lia). lia.
Qed.

Lemma at_most_one_mul m1 e1 m2 e2 :
  at_most_one m1 e1 -> at_most_one m2 e2 -> at_most_one (m1 * m2) (e1 + e2).
Proof.
  intros [He1 Hm1] [He2 Hm2]. split; [lia|].
  replace (- (e1 + e2)) with (- e1 + - e2) by lia.
  rewrite Z.pow_add_r by lia. nia.
Qed.

Lemma binary_round_aux_unit (M E : Z) :
  at_most_one M E ->
  sf_unit (binary_round_aux prec emax false M E loc_Exact).
Proof.
  intros HME. unfold binary_round_aux.
  destruct (shr_fexp_at_most_one M E HME) as [_ Hround].
  destruct (shr_fexp prec emax M E loc_Exact) as [mrs' e']. cbn [fst snd] in Hround.
  destruct (shr_fexp_at_most_one _ _ Hround) as [Hfinal _].
  destruct (shr_fexp prec emax _ e' loc_Exact) as [mrs'' e'']. cbn [fst snd] in Hfinal.
  destruct Hfinal as [He Hm].
  destruct (shr_m mrs'') as [|m|m]; [done| |lia].
  replace (e'' <=? emax - prec) with true by (symmetry; apply Z.leb_le; unfold prec, emax; lia).
  split; [done|]. unfold SFleb, sf_one, SFcompare.
  destruct (Z.compare_spec e'' (-52)) as [->|Hlt|Hgt]; [|done|lia].
  apply compare_cont_not_Gt. rewrite <-pow2_52. exact (proj2 Hm).
Qed.

Lemma SF64mul_unit (x y : spec_float) :
  valid_binary x = true -> valid_binary y = true ->
  sf_unit x -> sf_unit y -> sf_unit (SF64mul x y).
Proof.
  intros Hvx Hvy Hx Hy.
  destruct x as [sx|sx| |sx mx ex]; [|by destruct Hx as [? ?], sx|by destruct Hx|];
    (destruct y as [sy|sy| |sy my ey]; [|by destruct Hy as [? ?], sy|by destruct Hy|]).
  - done.
  - done.
  - done.
  - apply sf_unit_finite in Hx as [-> Hx]; [|done].
    apply sf_unit_finite in Hy as [-> Hy]; [|done].
    cbn [SF64mul SFmul xorb]. unfold SF64mul, SFmul. cbn [xorb].
    apply binary_round_aux_unit. rewrite Pos2Z.inj_mul. by apply at_most_one_mul.
Qed.

Lemma float_unit_mul (x y : float) :
  float_unit x = true -> float_unit y = true -> float_unit (x * y) = true.
Proof.
  unfold float_unit. rewrite !leb_spec, mul_spec.
  change (Prim2SF 0) with (S754_zero false). change (Prim2SF 1) with sf_one.
  intros [? ?]%andb_prop [? ?]%andb_prop.
  destruct (SF64mul_unit (Prim2SF x) (Prim2SF y)) as [-> ->];
    [apply Prim2SF_valid..|done|done|done].
Qed.

Lemma individual_probability_float_unit
    (one_gene two_genes have_trait : gset string) person r :
  float_unit (individual_probability (A := float) one_gene two_genes
                have_trait person r) = true.
Proof.
  unfold individual_probability, gene_branch, father_not_mother,
    mother_not_father.
  destruct (father r) as [f|], (mother r) as [m|]; simpl;
    unfold parent_passes, parent_keeps;
    repeat case_decide; destruct (bool_decide (person ∈ have_trait));
    vm_compute; reflexivity.
Qed.

Lemma joint_probability_float_unit
    (one_gene two_genes have_trait : gset string) people :
  float_unit (joint_probability (A := float) one_gene two_genes have_trait
                people) = true.
Proof.
  unfold joint_probability.
  assert (float_unit (lit 1) = true) as Hacc by (vm_compute; reflexivity).
  revert Hacc. generalize (lit 1 : float).
  induction people as [|[person r] people IH]; intros acc Hacc; [done|].
  simpl. apply IH, float_unit_mul; [done|].
  apply individual_probability_float_unit.
Qed.

End Binary64.

(** C2: when the one-gene and two-gene sets are disjoint sets of names of
    the registry and the trait set is a set of names of the registry, the
    value of [joint_probability] is between 0 and 1: the exact value, and
    the binary64 number the program returns. *)
Theorem joint_probability_in_unit_interval people
    (one_gene two_genes have_trait : gset string) :
  one_gene ## two_genes →
  one_gene ⊆ names people →
  two_genes ⊆ names people →
  have_trait ⊆ names people →
  (0 <= joint_probability (A := Q) one_gene two_genes have_trait people /\
   joint_probability (A := Q) one_gene two_genes have_trait people <= 1)%Q ∧
  let p := joint_probability (A := float) one_gene two_genes have_trait
             people in
  ((0 <=? p) = true ∧ (p <=? 1) = true)%float.
Proof.
  intros _ _ _ _. split; [apply joint_probability_unit|].
  intros p. apply andb_prop, joint_probability_float_unit.
Qed.

Lemma joint_probability_in_unit_interval_witness :
  let one_gene : gset string := {["Harry"]} in
  let two_genes : gset string := {["James"]} in
  let have_trait : gset string := {["James"]} in
  let q := joint_probability (A := Q) one_gene two_genes have_trait
             test_people in
  let p := joint_probability (A := float) one_gene two_genes have_trait
             test_people in
  one_gene ## two_genes ∧ one_gene ⊆ names test_people ∧
  two_genes ⊆ names test_people ∧ have_trait ⊆ names test_people ∧
  (0 <= q /\ q <= 1)%Q ∧ ((0 <=? p) = true ∧ (p <=? 1) = true)%float.
Proof.
  intros one_gene two_genes have_trait q p.
  assert (one_gene ## two_genes) as H1
    by (apply (bool_decide_unpack _); vm_compute; exact I).
  assert (one_gene ⊆ names test_people) as H2
    by (apply (bool_decide_unpack _); vm_compute; exact I).
  assert (two_genes ⊆ names test_people) as H3
    by (apply (bool_decide_unpack _); vm_compute; exact I).
  assert (have_trait ⊆ names test_people) as H4
    by (apply (bool_decide_unpack _); vm_compute; exact I).
  split_and!; [done..| |];
    apply (joint_probability_in_unit_interval test_people one_gene two_genes
             have_trait H1 H2 H3 H4).
Defined.

(** ** [normalize], [update] and the enumeration, for any arithmetic *)

Section Generic.
Context {A : Type} `{Number A}.
Implicit Types (one_gene two_genes have_trait : gset string).
Implicit Types (probabilities : dict (Tally A)) (t : Tally A).

Lemma normalize_person_raises t :
  is_zero (gene_norm t) = true ∨ is_zero (trait_norm t) = true →
  (normalize_person t).2 = Some ZeroDivisionError.
Proof.
  intros Hz. unfold normalize_person.
  destruct (is_zero (gene_norm t)) eqn:Hg; [done|].
  destruct Hz as [?|Ht]; [done|]. cbn -[gene_norm].
  change (trait_norm _) with (trait_norm t). by rewrite Ht.
Qed.

Lemma normalize_person_returns t :
  is_zero (gene_norm t) = false → is_zero (trait_norm t) = false →
  normalize_person t = (divided t, None).
Proof.
  intros Hg Ht. unfold normalize_person. rewrite Hg. cbn -[gene_norm].
  change (trait_norm _) with (trait_norm t). by rewrite Ht.
Qed.

(** C7: [normalize] has no guard on a zero sum: when the gene tallies or
    the trait tallies of some person of the mapping sum to zero, the call
    ends with [ZeroDivisionError]. *)
Theorem normalize_zero_sum_raises probabilities person t :
  (person, t) ∈ probabilities →
  is_zero (gene_norm t) = true ∨ is_zero (trait_norm t) = true →
  (normalize probabilities).2 = Some ZeroDivisionError.
Proof.
  intros Hin Hz.
  induction probabilities as [|[person' t'] probabilities IH].
  - by apply elem_of_nil in Hin.
  - cbn [normalize].
    destruct (normalize_person t') as [t'' [[]|]] eqn:Hp; [done|].
    apply elem_of_cons in Hin as [[= <- <-]|Hin].
    + apply normalize_person_raises in Hz. rewrite Hp in Hz. discriminate.
    + specialize (IH Hin). by destruct (normalize probabilities).
Qed.

Lemma update_person_adds one_gene two_genes have_trait (p : A) person t :
  adds_to_one_bucket_each p t
    (update_person one_gene two_genes have_trait p person t).
Proof.
  unfold adds_to_one_bucket_each, update_person.
  repeat case_decide; cbn; tauto.
Qed.

Lemma update_adds probabilities one_gene two_genes have_trait (p : A) :
  Forall2 (λ old new, new.1 = old.1 ∧ adds_to_one_bucket_each p old.2 new.2)
          probabilities
          (update probabilities one_gene two_genes have_trait p).
Proof.
  unfold update. induction probabilities as [|[person t] probabilities IH];
    constructor; [|done].
  split; [done|]. apply update_person_adds.
Qed.


(** *** The evidence check *)

Lemma dict_get_names (people : dict Person) person r :
  dict_get people person = Some r → person ∈ names people.
Proof.
  unfold names, keys. induction people as [|[k v] people IH]; [done|].
  cbn [dict_get]. case_decide as Hk.
  - intros _. subst k. set_solver.
  - intros Hget%IH. set_solver.
Qed.

Lemma fails_evidence_true (people : dict Person) have_trait person r b :
  dict_get people person = Some r →
  trait r = Some b →
  b ≠ bool_decide (person ∈ have_trait) →
  fails_evidence people have_trait = true.
Proof.
  intros Hget Htrait Hb. unfold fails_evidence.
  apply existsb_exists. exists person. split.
  - apply list_elem_of_In, elem_of_elements. by eapply dict_get_names.
  - rewrite Hget, Htrait. by destruct b, (bool_decide (person ∈ have_trait)).
Qed.

Lemma foldl_concat_map {X Y Z} (f : X → Y → X) (g : Z → list Y) a (l : list Z) :
  foldl f a (concat (map g l)) = foldl (fun a z => foldl f a (g z)) a l.
Proof.
  revert a. induction l as [|z l IH]; intros a; [done|].
  simpl. by rewrite foldl_app, IH.
Qed.

Lemma foldl_map {X Y Z} (f : X → Y → X) (g : Z → Y) a (l : list Z) :
  foldl f a (map g l) = foldl (fun a z => f a (g z)) a l.
Proof. revert a. induction l as [|z l IH]; intros a; [done|]. simpl. by rewrite IH. Qed.

Lemma foldl_pointwise {X Y} (f g : X → Y → X) a (l : list Y) :
  (∀ a y, f a y = g a y) → foldl f a l = foldl g a l.
Proof.
  intros Hfg. revert a. induction l as [|y l IH]; intros a; [done|].
  simpl. by rewrite Hfg, IH.
Qed.

Lemma foldl_skip {X Y} (c : Y → bool) (f : X → Y → X) a (l : list Y) :
  foldl (fun a y => if c y then a else f a y) a l =
  foldl f a (filter (fun y => c y = false) l).
Proof.
  revert a. induction l as [|y l IH]; intros a; [done|].
  simpl. rewrite IH. unfold filter at 2; cbn [list_filter].
  destruct (c y); by case_decide.
Qed.

(** The loops of [main] call [update] on the list [assignments], in order. *)
Lemma accumulate_assignments (people : dict Person) :
  accumulate (A := A) people =
  foldl (feed people) (initial_probabilities people) (assignments people).
Proof.
  unfold accumulate, assignments, trait_step.
  rewrite foldl_concat_map, (foldl_skip (fails_evidence people)).
  apply foldl_pointwise. intros probabilities have_trait. unfold gene_loops.
  rewrite foldl_concat_map. apply foldl_pointwise.
  intros probabilities' one_gene. by rewrite foldl_map.
Qed.

(** C5: a trait subset that disagrees with the recorded trait of some
    person fails the evidence check and the loop body leaves the tallies as
    they are; the tallies [main] accumulates are those of the calls of
    [update] on the list [assignments], and no assignment of that list has
    this trait subset. *)
Theorem contradicting_trait_subset_skipped (people : dict Person) probabilities
    have_trait person r b :
  dict_get people person = Some r →
  trait r = Some b →
  b ≠ bool_decide (person ∈ have_trait) →
  fails_evidence people have_trait = true ∧
  trait_step people probabilities have_trait = probabilities ∧
  accumulate (A := A) people =
    foldl (feed people) (initial_probabilities people) (assignments people) ∧
  ∀ one_gene two_genes, (one_gene, two_genes, have_trait) ∉ assignments people.
Proof.
  intros Hget Htrait Hb.
  pose proof (fails_evidence_true _ _ _ _ _ Hget Htrait Hb) as Hfails.
  split_and!; [done| |apply accumulate_assignments|].
  - unfold trait_step. by rewrite Hfails.
  - intros one_gene two_genes Hin. unfold assignments in Hin.
    apply list_elem_of_In, in_concat in Hin as (l & Hl & Hin).
    apply in_map_iff in Hl as (ht & <- & Hht).
    apply list_elem_of_In, list_elem_of_filter in Hht as [Hpass _].
    apply in_concat in Hin as (l' & Hl' & Hin).
    apply in_map_iff in Hl' as (og & <- & _).
    apply in_map_iff in Hin as (tg & [= -> -> ->] & _). congruence.
Qed.

End Generic.

Lemma normalize_zero_sum_raises_witness :
  (normalize (A := float) (initial_probabilities test_people)).2
    = Some ZeroDivisionError.
Proof.
  apply (normalize_zero_sum_raises (A := float)
           (initial_probabilities test_people) "Harry" zero_tally).
  - vm_compute. by left.
  - left. vm_compute. reflexivity.
Defined.

Lemma contradicting_trait_subset_skipped_witness :
  let james := {| name := "James"; mother := None; father := None;
                  trait := Some true |} in
  let probabilities := initial_probabilities (A := Q) test_people in
  dict_get test_people "James" = Some james ∧
  fails_evidence test_people ∅ = true ∧
  trait_step test_people probabilities ∅ = probabilities ∧
  accumulate (A := Q) test_people =
    foldl (feed test_people) (initial_probabilities test_people)
          (assignments test_people) ∧
  ∀ one_gene two_genes, (one_gene, two_genes, ∅) ∉ assignments test_people.
Proof.
  intros james probabilities. split; [reflexivity|].
  apply (contradicting_trait_subset_skipped (A := Q) test_people probabilities
           ∅ "James" james true).
  - reflexivity.
  - reflexivity.
  - vm_compute. discriminate.
Defined.

(** ** Sequences of calls of [update] *)

Section Calls.
Context {A : Type} `{Number A}.
Implicit Types (one_gene two_genes have_trait : gset string).
Implicit Types (probabilities : dict (Tally A)) (t : Tally A).
Implicit Types (calls : list (gset string * gset string * gset string * A)).

(** The tally of one person after a sequence of calls. *)
Lemma updates_entries probabilities calls :
  updates probabilities calls =
    map (λ '(person, t),
           (person,
            foldl (λ t '(one_gene, two_genes, have_trait, p),
                     update_person one_gene two_genes have_trait p person t)
                  t calls))
        probabilities.
Proof.
  revert probabilities.
  induction calls as [|[[[og tg] ht] p] calls IH]; intros probabilities.
  - cbn. induction probabilities as [|[person t] ? IHp]; [done|].
    cbn. by rewrite <-IHp.
  - cbn [updates foldl]. fold (updates (update probabilities og tg ht p) calls).
    rewrite IH. unfold update. rewrite map_map.
    apply map_ext. by intros [person t].
Qed.

Lemma calls_where_cons (P : gset string * gset string * gset string → Prop)
    `{!∀ a, Decision (P a)} a (p : A) calls :
  calls_where P ((a, p) :: calls) =
    if decide (P a) then p :: calls_where P calls else calls_where P calls.
Proof.
  unfold calls_where. rewrite filter_cons. cbn [fst].
  by destruct (decide (P a)).
Qed.

(** Each bucket after the calls: the bucket before, then [+=] for each call
    that picks the bucket, in the order of the calls. *)
Lemma person_calls_buckets person calls t :
  let t' := foldl (λ t '(one_gene, two_genes, have_trait, p),
                     update_person one_gene two_genes have_trait p person t)
                  t calls in
  gene_0 t' = foldl nadd (gene_0 t)
                (calls_where (λ a, (person ∉ a.1.1) ∧ (person ∉ a.1.2)) calls) ∧
  gene_1 t' = foldl nadd (gene_1 t)
                (calls_where (λ a, person ∈ a.1.1) calls) ∧
  gene_2 t' = foldl nadd (gene_2 t)
                (calls_where (λ a, (person ∉ a.1.1) ∧ (person ∈ a.1.2)) calls) ∧
  trait_True t' = foldl nadd (trait_True t)
                    (calls_where (λ a, person ∈ a.2) calls) ∧
  trait_False t' = foldl nadd (trait_False t)
                     (calls_where (λ a, person ∉ a.2) calls).
Proof.
  revert t. induction calls as [|[[[og tg] ht] p] calls IH]; intros t; [done|].
  cbn zeta. cbn [foldl]. specialize (IH (update_person og tg ht p person t)).
  cbn zeta in IH. destruct IH as (-> & -> & -> & -> & ->).
  rewrite !calls_where_cons. unfold update_person. cbn [fst snd].
  repeat case_decide; cbn; try tauto; try done.
Qed.

Lemma tally_eta t :
  t = {| gene_0 := gene_0 t; gene_1 := gene_1 t; gene_2 := gene_2 t;
         trait_True := trait_True t; trait_False := trait_False t |}.
Proof. by destruct t. Qed.

Lemma updates_tally_of_calls (people : dict Person) calls :
  updates (initial_probabilities people) calls =
    map (λ '(person, _), (person, tally_of_calls person calls)) people.
Proof.
  rewrite updates_entries. unfold initial_probabilities. rewrite map_map.
  apply map_ext. intros [person r]. f_equal.
  pose proof (person_calls_buckets person calls zero_tally) as Hb.
  cbn zeta in Hb. destruct Hb as (H0 & H1 & H2 & HT & HF).
  rewrite (tally_eta (foldl _ _ _)). unfold tally_of_calls, sum_left.
  by rewrite H0, H1, H2, HT, HF.
Qed.

(** Every call is counted once among the three gene buckets and once among
    the two trait buckets. *)
Lemma calls_where_gene person calls :
  calls_where (λ a, (person ∉ a.1.1) ∧ (person ∉ a.1.2)) calls ++
  calls_where (λ a, person ∈ a.1.1) calls ++
  calls_where (λ a, (person ∉ a.1.1) ∧ (person ∈ a.1.2)) calls ≡ₚ calls.*2.
Proof.
  induction calls as [|[[[og tg] ht] p] calls IH]; [done|].
  rewrite !calls_where_cons. cbn [fst snd fmap list_fmap].
  repeat case_decide; try tauto; cbn;
    rewrite <-?Permutation_middle; by constructor.
Qed.

Lemma calls_where_trait person calls :
  calls_where (λ a, person ∈ a.2) calls ++
  calls_where (λ a, person ∉ a.2) calls ≡ₚ calls.*2.
Proof.
  induction calls as [|[[[og tg] ht] p] calls IH]; [done|].
  rewrite !calls_where_cons. cbn [fst snd fmap list_fmap].
  repeat case_decide; try tauto; cbn;
    rewrite <-?Permutation_middle; by constructor.
Qed.

End Calls.

(** ** What [normalize] and [update] leave in the tallies *)

Section Tallies.
Context {A : Type} `{Number A}.
Implicit Types (one_gene two_genes have_trait : gset string).
Implicit Types (probabilities : dict (Tally A)) (t : Tally A).
Implicit Types (calls : list (gset string * gset string * gset string * A)).
Local Open Scope num_scope.


(** C9: one call of [update] keeps the persons and, for each of them, adds
    [p] to one of the three gene buckets and to one of the two trait
    buckets and leaves the other buckets as they were.  So after any calls
    of [update] on the zero mapping each bucket of a person holds the
    probabilities of the calls that picked it, added from zero in the order
    of the calls; and every call is counted once among the person's three
    gene buckets and once among the two trait buckets. *)
Theorem update_bucket_sums probabilities one_gene two_genes have_trait (p : A)
    (people : dict Person) calls :
  Forall2 (λ old new, new.1 = old.1 ∧ adds_to_one_bucket_each p old.2 new.2)
          probabilities
          (update probabilities one_gene two_genes have_trait p) ∧
  updates (initial_probabilities people) calls =
    map (λ '(person, _), (person, tally_of_calls person calls)) people ∧
  ∀ person,
    calls_where (λ a, (person ∉ a.1.1) ∧ (person ∉ a.1.2)) calls ++
    calls_where (λ a, person ∈ a.1.1) calls ++
    calls_where (λ a, (person ∉ a.1.1) ∧ (person ∈ a.1.2)) calls ≡ₚ calls.*2 ∧
    calls_where (λ a, person ∈ a.2) calls ++
    calls_where (λ a, person ∉ a.2) calls ≡ₚ calls.*2.
Proof.
  split_and!.
  - apply update_adds.
  - apply updates_tally_of_calls.
  - intros person. split; [apply calls_where_gene|apply calls_where_trait].
Qed.

(** X5: when the loops of [main] end, each bucket of each person holds the
    joint probabilities of the enumerated assignments that put the person
    in that bucket, added from zero in the order of the enumeration. *)
Theorem accumulate_bucket_sums (people : dict Person) :
  accumulate (A := A) people =
    map (λ '(person, _), (person, tally_of_calls person (calls_of_main people)))
        people.
Proof.
  rewrite accumulate_assignments, <-updates_tally_of_calls.
  unfold updates, calls_of_main. rewrite foldl_map.
  apply foldl_pointwise. by intros probabilities [[og tg] ht].
Qed.

End Tallies.



(** Three calls for one person, with 0.1, 0.2 and 0.3: the gene buckets
    hold 0.3 and 0.1 + 0.2, the trait buckets 0.1 and 0.2 + 0.3, and the
    sums are 0x1.3333333333334p-1 and 0x1.3333333333333p-1.  On the
    registry of the test the loops of [main] leave Harry's gene tallies
    with the sum 0x1.04a6528f99e66p-5, in any order of adding, and the
    trait tallies with 0x1.04a6528f99e68p-5. *)
Lemma update_sums_differ :
  let harry := {| name := "Harry"; mother := None; father := None;
                  trait := None |} in
  let calls : list (gset string * gset string * gset string * float) :=
    [ ({["Harry"]}, ∅, {["Harry"]}, lit 0.1);
      ({["Harry"]}, ∅, ∅, lit 0.2);
      (∅, ∅, ∅, lit 0.3) ] in
  let t : Tally float :=
    {| gene_0 := nadd (lit 0) (lit 0.3);
       gene_1 := nadd (nadd (lit 0) (lit 0.1)) (lit 0.2);
       gene_2 := lit 0;
       trait_True := nadd (lit 0) (lit 0.1);
       trait_False := nadd (nadd (lit 0) (lit 0.2)) (lit 0.3) |} in
  (updates (initial_probabilities [("Harry", harry)]) calls = [("Harry", t)] ∧
   nadd (nadd (gene_0 t) (gene_1 t)) (gene_2 t) = 0x1.3333333333334p-1%float ∧
   nadd (trait_True t) (trait_False t) = 0x1.3333333333333p-1%float ∧
   nadd (nadd (gene_0 t) (gene_1 t)) (gene_2 t)
     ≠ nadd (trait_True t) (trait_False t)) ∧
  ∃ h : Tally float,
    accumulate (A := float) test_people !! 0%nat = Some ("Harry", h) ∧
    nadd (trait_True h) (trait_False h) = 0x1.04a6528f99e68p-5%float ∧
    nadd (nadd (gene_0 h) (gene_1 h)) (gene_2 h) = 0x1.04a6528f99e66p-5%float ∧
    nadd (gene_0 h) (nadd (gene_1 h) (gene_2 h)) = 0x1.04a6528f99e66p-5%float ∧
    nadd (nadd (gene_0 h) (gene_2 h)) (gene_1 h) = 0x1.04a6528f99e66p-5%float ∧
    nadd (nadd (gene_0 h) (gene_1 h)) (gene_2 h)
      ≠ nadd (trait_True h) (trait_False h).
Proof.
  intros harry calls t. split.
  - split_and!; try (vm_compute; reflexivity).
    intros Heq.
    apply (f_equal (λ x, PrimFloat.eqb x 0x1.3333333333333p-1%float)) in Heq.
    vm_compute in Heq. discriminate.
  - eexists. split; [vm_compute; reflexivity|].
    split_and!; try (vm_compute; reflexivity).
    intros Heq.
    apply (f_equal (λ x, PrimFloat.eqb x 0x1.04a6528f99e68p-5%float)) in Heq.
    vm_compute in Heq. discriminate.
Qed.

(** ** The factor of one person inside [joint_probability] *)

Section Factor.
Context {A : Type} `{Number A}.
Implicit Types (one_gene two_genes have_trait : gset string).
Implicit Types (people : dict Person) (probabilities : dict (Tally A)).
Local Open Scope num_scope.

(** The loop of [joint_probability], cut at the row of one person. *)
Lemma joint_probability_at one_gene two_genes have_trait people i person r :
  people !! i = Some (person, r) →
  joint_probability one_gene two_genes have_trait people =
    joint_probability_from one_gene two_genes have_trait
      (joint_probability one_gene two_genes have_trait (take i people)
       * individual_probability one_gene two_genes have_trait person r)
      (drop (S i) people).
Proof.
  intros Hi. rewrite <-(take_drop_middle people i (person, r) Hi) at 1.
  unfold joint_probability, joint_probability_from.
  by rewrite foldl_app.
Qed.

Lemma update_at probabilities one_gene two_genes have_trait (p : A) j person t :
  probabilities !! j = Some (person, t) →
  update probabilities one_gene two_genes have_trait p !! j =
    Some (person, update_person one_gene two_genes have_trait p person t).
Proof.
  unfold update. revert j.
  induction probabilities as [|[person' t'] probabilities IH];
    intros [|j] Hj; try done.
  - by injection Hj as -> ->.
  - by apply IH.
Qed.

(** C10: for a person in both [one_gene] and [two_genes],
    [joint_probability] multiplies in the factor of a person with two
    copies (the gene factor of the two-copies branch and the trait entry
    for two copies), and [update] adds [p] to the one-copy bucket of the
    person's entry and leaves the two-copies and no-copy buckets as they
    were. *)
Theorem overlap_classified_differently one_gene two_genes have_trait
    people probabilities (p : A) i j person r t :
  person ∈ one_gene →
  person ∈ two_genes →
  people !! i = Some (person, r) →
  probabilities !! j = Some (person, t) →
  (gene_branch one_gene two_genes person r).1 = G2 ∧
  joint_probability one_gene two_genes have_trait people =
    joint_probability_from one_gene two_genes have_trait
      (joint_probability one_gene two_genes have_trait (take i people)
       * (match father r, mother r with
          | Some f, Some m =>
              foldl (parent_passes one_gene two_genes) (lit 1) [f; m]
          | _, _ => lit 1 * PROBS_gene G2
          end
          * PROBS_trait G2 (bool_decide (person ∈ have_trait))))
      (drop (S i) people) ∧
  ∃ t', update probabilities one_gene two_genes have_trait p !! j
          = Some (person, t') ∧
        gene_1 t' = gene_1 t + p ∧ gene_2 t' = gene_2 t ∧
        gene_0 t' = gene_0 t.
Proof.
  intros H1 H2 Hi Hj. split_and!.
  - unfold gene_branch. by rewrite decide_True by done.
  - rewrite (joint_probability_at _ _ _ _ _ _ _ Hi).
    unfold individual_probability, gene_branch.
    by rewrite decide_True by done.
  - eexists. split; [by apply update_at|].
    unfold update_person.
    rewrite !(decide_True (P := person ∈ one_gene)) by done.
    by case_decide.
Qed.

End Factor.

Lemma overlap_classified_differently_witness :
  let both : gset string := {["Harry"]} in
  let r := {| name := "Harry"; mother := Some "Lily"; father := Some "James";
              trait := None |} in
  (gene_branch (A := float) both both "Harry" r).1 = G2 ∧
  joint_probability (A := float) both both ∅ test_people =
    joint_probability_from both both ∅
      (nmul (joint_probability both both ∅ [])
            (nmul (foldl (parent_passes both both) (lit 1) ["James"; "Lily"])
                  (PROBS_trait G2 false)))
      (drop 1 test_people) ∧
  ∃ t', update (initial_probabilities (A := float) test_people) both both ∅
               (lit 0.25) !! 0%nat = Some ("Harry", t') ∧
        gene_1 t' = nadd (lit 0) (lit 0.25) ∧ gene_2 t' = lit 0 ∧
        gene_0 t' = lit 0.
Proof.
  intros both r.
  assert ("Harry" ∈ both) as Hin
    by (apply (bool_decide_unpack _); vm_compute; exact I).
  exact (overlap_classified_differently (A := float) both both ∅ test_people
           (initial_probabilities test_people) (lit 0.25) 0 0 "Harry" r
           zero_tally Hin Hin eq_refl eq_refl).
Defined.

(** ** The one-copy factor in binary64 *)

Section OneCopy.
Implicit Types (one_gene two_genes have_trait : gset string).
Implicit Types (people : dict Person).
Local Open Scope num_scope.

Lemma one_copy_gene_branch one_gene two_genes person r f m :
  person ∈ one_gene →
  person ∉ two_genes →
  father r = Some f →
  mother r = Some m →
  gene_branch (A := float) one_gene two_genes person r =
    (G1, transmits one_gene two_genes f * withholds one_gene two_genes m
         + transmits one_gene two_genes m * withholds one_gene two_genes f).
Proof.
  intros Hperson Hnot Hf Hm. unfold gene_branch. rewrite Hf, Hm.
  rewrite decide_False by done. rewrite decide_True by done. f_equal.
  unfold father_not_mother, mother_not_father, withholds, transmits.
  repeat case_decide; vm_compute; reflexivity.
Qed.

(** C4: a person with one copy, whose father and mother are both recorded,
    contributes to the product of [joint_probability] the gene factor
    [t_father * w_mother + t_mother * w_father], times the trait entry for
    one copy.  [t] is what a parent [transmits]: 1 - mu with two copies, 0.5
    with one, mu with none; [w] is what the parent [withholds]: mu itself
    with two copies, and one minus [t] otherwise.  The arithmetic is
    binary64. *)
Theorem one_copy_gene_factor one_gene two_genes have_trait people i
    person r f m :
  people !! i = Some (person, r) →
  person ∈ one_gene →
  person ∉ two_genes →
  father r = Some f →
  mother r = Some m →
  let tf : float := transmits one_gene two_genes f in
  let tm : float := transmits one_gene two_genes m in
  let wf : float := withholds one_gene two_genes f in
  let wm : float := withholds one_gene two_genes m in
  gene_branch one_gene two_genes person r = (G1, tf * wm + tm * wf) ∧
  joint_probability one_gene two_genes have_trait people =
    joint_probability_from one_gene two_genes have_trait
      (joint_probability one_gene two_genes have_trait (take i people)
       * ((tf * wm + tm * wf)
          * PROBS_trait G1 (bool_decide (person ∈ have_trait))))
      (drop (S i) people).
Proof.
  intros Hi Hperson Hnot Hf Hm tf tm wf wm.
  pose proof (one_copy_gene_branch one_gene two_genes person r f m
                Hperson Hnot Hf Hm) as Hbranch.
  split; [exact Hbranch|].
  rewrite (joint_probability_at _ _ _ _ _ _ _ Hi).
  unfold individual_probability. by rewrite Hbranch.
Qed.

End OneCopy.

Lemma one_copy_gene_factor_witness :
  let one_gene : gset string := {["Harry"]} in
  let two_genes : gset string := {["James"]} in
  let have_trait : gset string := {["James"]} in
  let r := {| name := "Harry"; mother := Some "Lily"; father := Some "James";
              trait := None |} in
  let mu : float := lit 0.01 in
  let factor := nadd (nmul (nsub (lit 1) mu) (nsub (lit 1) mu)) (nmul mu mu) in
  gene_branch one_gene two_genes "Harry" r = (G1, factor) ∧
  joint_probability one_gene two_genes have_trait test_people =
    joint_probability_from one_gene two_genes have_trait
      (nmul (joint_probability one_gene two_genes have_trait [])
            (nmul factor (PROBS_trait G1 false)))
      (drop 1 test_people).
Proof.
  intros one_gene two_genes have_trait r mu factor.
  assert ("Harry" ∈ one_gene) as H1
    by (apply (bool_decide_unpack _); vm_compute; exact I).
  assert ("Harry" ∉ two_genes) as H2
    by (apply (bool_decide_unpack _); vm_compute; exact I).
  exact (one_copy_gene_factor one_gene two_genes have_trait test_people 0
           "Harry" r "James" "Lily" eq_refl H1 H2 eq_refl eq_refl).
Defined.

(** With both parents assigned two copies the code multiplies
    [(1 - mu) * mu] twice, which is 0x1.4467381d7dbf5p-6; the formula with
    one minus the transmission probability has [1 - (1 - mu)], which is not
    [mu] in binary64, and gives 0x1.4467381d7dbfap-6.  The value of
    [joint_probability] differs with it. *)
Lemma one_copy_gene_factor_not_one_minus :
  let one_gene : gset string := {["Harry"]} in
  let two_genes : gset string := {["James"; "Lily"]} in
  let r := {| name := "Harry"; mother := Some "Lily"; father := Some "James";
              trait := None |} in
  let tf : float := transmits one_gene two_genes "James" in
  let tm : float := transmits one_gene two_genes "Lily" in
  let claimed :=
    nadd (nmul tf (nsub (lit 1) tm)) (nmul tm (nsub (lit 1) tf)) in
  test_people !! 0%nat = Some ("Harry", r) ∧
  tf = nsub (lit 1) (lit 0.01) ∧ tm = nsub (lit 1) (lit 0.01) ∧
  (gene_branch one_gene two_genes "Harry" r).1 = G1 ∧
  (gene_branch one_gene two_genes "Harry" r).2 = 0x1.4467381d7dbf5p-6%float ∧
  claimed = 0x1.4467381d7dbfap-6%float ∧
  (gene_branch one_gene two_genes "Harry" r).2 ≠ claimed ∧
  joint_probability one_gene two_genes ∅ test_people ≠
    joint_probability_from one_gene two_genes ∅
      (nmul (joint_probability one_gene two_genes ∅ (take 0 test_people))
            (nmul claimed
                  (PROBS_trait G1
                     (bool_decide ("Harry" ∈ (∅ : gset string))))))
      (drop 1 test_people).
Proof.
  intros one_gene two_genes r tf tm claimed.
  split_and!; try (vm_compute; reflexivity).
  - intros Heq.
    apply (f_equal (λ x, PrimFloat.eqb x 0x1.4467381d7dbfap-6%float)) in Heq.
    vm_compute in Heq. discriminate.
  - intros Heq.
    apply (f_equal (λ x, PrimFloat.eqb x (joint_probability one_gene two_genes
                                            ∅ test_people))) in Heq.
    vm_compute in Heq. discriminate.
Qed.

(** ** What the calls do to the store *)

Section Frame.
Context {A : Type} `{Number A}.
Implicit Types (σ : Store A).

Lemma by_parent_copies_run {R} parent (two one none : R) σ :
  by_parent_copies parent two one none σ =
  (if decide (parent ∈ st_two_genes σ) then two
   else if decide (parent ∈ st_one_gene σ) then one else none, σ).
Proof.
  unfold by_parent_copies, bind, contains, ret.
  repeat case_bool_decide; repeat case_decide; done.
Qed.

Lemma has_trait_m_run person n x σ :
  has_trait_m person n x σ =
  (nmul x (PROBS_trait n (bool_decide (person ∈ st_have_trait σ))), σ).
Proof. unfold has_trait_m, bind, contains, ret. by case_bool_decide. Qed.

(** One turn of the loop multiplies [probability] by the person's factor and
    leaves the store as it found it. *)
Lemma person_m_run probability person r σ :
  person_m probability (person, r) σ =
  (nmul probability
        (individual_probability (st_one_gene σ) (st_two_genes σ)
                                (st_have_trait σ) person r), σ).
Proof.
  unfold person_m, individual_probability, gene_branch.
  unfold bind at 1. unfold contains at 1.
  case_bool_decide; [rewrite decide_True by done|rewrite decide_False by done].
  - destruct (father r) as [f|], (mother r) as [m|]; cbn [for_each];
      unfold bind, ret; rewrite ?by_parent_copies_run, ?has_trait_m_run;
      done.
  - unfold bind at 1. unfold bind at 1. unfold contains at 1.
    case_bool_decide; [rewrite decide_True by done|rewrite decide_False by done].
    + destruct (father r) as [f|], (mother r) as [m|];
        unfold bind, ret; rewrite ?by_parent_copies_run, ?has_trait_m_run;
        try done.
      unfold father_not_mother, mother_not_father.
      repeat first [ rewrite by_parent_copies_run | rewrite has_trait_m_run
                   | case_decide | progress cbn beta iota zeta ];
        done.
    + destruct (father r) as [f|], (mother r) as [m|]; cbn [for_each];
        unfold bind, ret; rewrite ?by_parent_copies_run, ?has_trait_m_run;
        done.
Qed.

(** C8: a call of [joint_probability] returns the value computed from the
    registry and the three sets and leaves the store, hence [people],
    [one_gene], [two_genes] and [have_trait], as it found them. *)
Theorem joint_probability_no_mutation σ :
  joint_probability_m σ =
  (joint_probability (st_one_gene σ) (st_two_genes σ) (st_have_trait σ)
                     (st_people σ), σ).
Proof.
  unfold joint_probability_m, joint_probability, bind, people_items.
  generalize (lit 1 : A). generalize (st_people σ) at 1 2.
  intros people. induction people as [|[person r] people IH]; intros acc; [done|].
  cbn [for_each foldl]. unfold bind. by rewrite person_m_run, IH.
Qed.

Lemma update_person_m_run p person σ :
  update_person_m p tt person σ =
  (tt, with_probabilities σ (update_some [person] p σ (st_probabilities σ))).
Proof.
  unfold update_person_m, bind, contains, modify_tally, update_some,
    with_probabilities.
  repeat case_bool_decide;
    cbn [st_people st_one_gene st_two_genes st_have_trait st_probabilities] in *;
    f_equal; f_equal; rewrite map_map; apply map_ext; intros [k t];
    unfold update_person;
    (destruct (decide (k = person)) as [->|Hk];
     [ rewrite (decide_True (P := person ∈ [person])) by set_solver
     | rewrite (decide_False (P := k ∈ [person])) by set_solver ]);
    repeat first [ rewrite decide_True by done | rewrite decide_False by done ];
    done.
Qed.

Lemma update_loop_run p persons σ :
  NoDup persons →
  for_each persons tt (update_person_m p) σ =
  (tt, with_probabilities σ (update_some persons p σ (st_probabilities σ))).
Proof.
  intros Hnd. revert σ. induction Hnd as [|person persons Hnotin Hnd IH]; intros σ.
  - cbn [for_each]. unfold ret, update_some. f_equal.
    destruct σ. unfold with_probabilities. cbn. f_equal.
    rewrite <-(map_id st_probabilities0) at 1. apply map_ext. by intros [k t].
  - cbn [for_each]. unfold bind. rewrite update_person_m_run, IH.
    f_equal. unfold with_probabilities, update_some. cbn. f_equal.
    rewrite map_map. apply map_ext. intros [k t].
    destruct (decide (k = person)) as [->|Hk].
    + rewrite (decide_True (P := person ∈ [person])) by set_solver.
      rewrite (decide_False (P := person ∈ persons)) by done.
      rewrite (decide_True (P := person ∈ person :: persons)) by set_solver.
      done.
    + rewrite (decide_False (P := k ∈ [person])) by set_solver.
      destruct (decide (k ∈ persons)).
      * rewrite (decide_True (P := k ∈ person :: persons)) by set_solver. done.
      * rewrite (decide_False (P := k ∈ person :: persons)) by set_solver. done.
Qed.

(** A call of [update] changes [probabilities] as the function [update]
    says and leaves the registry and the three sets as they were. *)
Lemma update_m_run p σ :
  NoDup (keys (st_probabilities σ)) →
  update_m p σ =
  (tt, with_probabilities σ
         (update (st_probabilities σ) (st_one_gene σ) (st_two_genes σ)
                 (st_have_trait σ) p)).
Proof.
  intros Hnd. unfold update_m, bind, probabilities_keys.
  rewrite update_loop_run by done. f_equal. f_equal.
  unfold update_some, update. apply map_ext_in. intros [k t] Hin.
  rewrite decide_True; [done|]. unfold keys.
  apply list_elem_of_In in Hin. by apply (list_elem_of_fmap_2 fst) in Hin.
Qed.

End Frame.

(** ** The assignments [main] enumerates *)

Section Enumeration.
Implicit Types (people : dict Person) (have_trait : gset string).

Lemma names_dict_get people person :
  person ∈ names people → is_Some (dict_get people person).
Proof.
  unfold names, keys. rewrite elem_of_list_to_set.
  induction people as [|[k v] people IH]; [by intros ?%elem_of_nil|].
  cbn [dict_get fmap list_fmap fst]. case_decide; [by eauto|].
  intros [?|?]%elem_of_cons; [done|by apply IH].
Qed.

Lemma fails_evidence_false people have_trait :
  fails_evidence people have_trait = false ↔ consistent people have_trait.
Proof.
  split.
  - intros Hpass person r b Hget Htrait.
    destruct (decide (b = bool_decide (person ∈ have_trait))) as [|Hb]; [done|].
    pose proof (fails_evidence_true _ _ _ _ _ Hget Htrait Hb).
    congruence.
  - intros Hc. unfold fails_evidence.
    destruct (existsb _ _) eqn:Hex; [|done].
    apply existsb_exists in Hex as (person & _ & Hperson).
    destruct (dict_get people person) as [r|] eqn:Hget; [|done].
    destruct (trait r) as [b|] eqn:Htrait; [|done].
    rewrite (Hc _ _ _ Hget Htrait) in Hperson.
    by destruct (bool_decide (person ∈ have_trait)).
Qed.

Lemma elem_of_concat_map {X Y} (f : X → list Y) (l : list X) (y : Y) :
  y ∈ concat (map f l) ↔ ∃ x, x ∈ l ∧ y ∈ f x.
Proof.
  rewrite list_elem_of_In, in_concat. split.
  - intros (ys & Hys & Hy). apply in_map_iff in Hys as (x & <- & Hx).
    exists x. by rewrite !list_elem_of_In.
  - intros (x & Hx & Hy). exists (f x). rewrite <-!list_elem_of_In.
    split; [|done]. by apply list_elem_of_fmap_2.
Qed.

Lemma NoDup_concat_map {X Y} (f : X → list Y) (l : list X) :
  NoDup l → (∀ x, x ∈ l → NoDup (f x)) →
  (∀ x1 x2 y, x1 ∈ l → x2 ∈ l → y ∈ f x1 → y ∈ f x2 → x1 = x2) →
  NoDup (concat (map f l)).
Proof.
  intros Hl Hf Hdisj. induction Hl as [|x l Hx Hl IH]; [apply NoDup_nil_2|].
  cbn [map concat]. apply NoDup_app. split_and!.
  - apply Hf. by left.
  - intros y Hy (x' & Hx' & Hy')%elem_of_concat_map.
    apply Hx. rewrite (Hdisj x x' y); [done|by left|by right|done..].
  - apply IH.
    + intros x' Hx'. apply Hf. by right.
    + intros x1 x2 y H1 H2. apply Hdisj; by right.
Qed.

Lemma elem_of_assignments people one_gene two_genes have_trait :
  (one_gene, two_genes, have_trait) ∈ assignments people ↔
  have_trait ⊆ names people ∧ fails_evidence people have_trait = false ∧
  one_gene ⊆ names people ∧ two_genes ⊆ names people ∖ one_gene.
Proof.
  unfold assignments. rewrite elem_of_concat_map. split.
  - intros (ht & [Hpass Hht]%list_elem_of_filter & Hin).
    apply elem_of_concat_map in Hin as (og & Hog & Hin).
    apply list_elem_of_fmap in Hin as (tg & [= -> -> ->] & Htg).
    by rewrite !elem_of_powerset in *.
  - intros (Hht & Hpass & Hog & Htg). exists have_trait. split.
    + apply list_elem_of_filter. by rewrite elem_of_powerset.
    + apply elem_of_concat_map. exists one_gene.
      rewrite elem_of_powerset. split; [done|].
      apply list_elem_of_fmap. exists two_genes. by rewrite elem_of_powerset.
Qed.

Lemma NoDup_assignments people : NoDup (assignments people).
Proof.
  unfold assignments. apply NoDup_concat_map.
  - apply NoDup_filter, NoDup_powerset.
  - intros ht _. apply NoDup_concat_map.
    + apply NoDup_powerset.
    + intros og _. apply NoDup_fmap_2_strong; [|apply NoDup_powerset].
      by intros tg1 tg2 _ _ [= ->].
    + intros og1 og2 a _ _ (tg1 & -> & _)%list_elem_of_fmap
        (tg2 & [= -> _] & _)%list_elem_of_fmap. done.
  - intros ht1 ht2 a _ _ (og1 & _ & H1)%elem_of_concat_map
      (og2 & _ & H2)%elem_of_concat_map.
    apply list_elem_of_fmap in H1 as (tg1 & -> & _).
    by apply list_elem_of_fmap in H2 as (tg2 & [= _ _ ->] & _).
Qed.

(** X1: the loops of [main] reach an assignment if and only if its three
    sets are sets of names of the registry, the one-gene and two-gene sets
    are disjoint, and the trait set agrees with every recorded trait; and
    they reach it once. *)
Theorem assignments_valid_once people :
  (∀ one_gene two_genes have_trait,
     (one_gene, two_genes, have_trait) ∈ assignments people ↔
     one_gene ⊆ names people ∧ two_genes ⊆ names people ∧
     one_gene ## two_genes ∧ have_trait ⊆ names people ∧
     consistent people have_trait) ∧
  NoDup (assignments people).
Proof.
  split; [|apply NoDup_assignments].
  intros one_gene two_genes have_trait.
  rewrite elem_of_assignments, fails_evidence_false. set_solver.
Qed.

End Enumeration.

(** ** The tallies [main] accumulates *)

Section Accumulation.
Context {A : Type} `{Number A}.
Implicit Types (people : dict Person) (person : string).
Implicit Types (l : list (gset string * gset string * gset string)).

(** The calls of [update] act on each person's entry on its own. *)
Lemma foldl_feed people l (probabilities : dict (Tally A)) :
  foldl (feed people) probabilities l =
  map (λ '(person, t), (person, person_tally people person l t)) probabilities.
Proof.
  revert probabilities. induction l as [|[[og tg] ht] l IH]; intros probabilities.
  - cbn. rewrite <-(map_id probabilities) at 1. apply map_ext. by intros [??].
  - cbn [foldl]. rewrite IH. unfold feed, update. rewrite map_map.
    apply map_ext. by intros [person t].
Qed.

Lemma accumulate_person_tally people :
  accumulate (A := A) people =
  map (λ '(person, _),
         (person, person_tally people person (assignments people) zero_tally))
      people.
Proof.
  rewrite accumulate_assignments, foldl_feed. unfold initial_probabilities.
  rewrite map_map. apply map_ext. by intros [person r].
Qed.

Lemma elem_of_accumulate people person (t : Tally A) :
  (person, t) ∈ accumulate people →
  person ∈ keys people ∧
  t = person_tally people person (assignments people) zero_tally.
Proof.
  rewrite accumulate_person_tally.
  intros ([k r] & Heq & Hin)%list_elem_of_fmap. simplify_eq/=. split; [|done].
  by apply (list_elem_of_fmap_2 fst) in Hin.
Qed.

Lemma keys_accumulate people : keys (accumulate (A := A) people) = keys people.
Proof.
  rewrite accumulate_person_tally. unfold keys.
  rewrite <-list_fmap_compose. apply list_fmap_ext. by intros i [person r] _.
Qed.

(** X2: the mapping [main] accumulates has one entry for each row of the
    registry, in the order of the registry, whatever the evidence. *)
Theorem accumulate_keys people : keys (accumulate (A := A) people) = keys people.
Proof. apply keys_accumulate. Qed.

Lemma person_tally_evidence people person l (t : Tally A) (b : bool) :
  (∀ og tg ht, (og, tg, ht) ∈ l → b = bool_decide (person ∈ ht)) →
  (if b then trait_False (person_tally people person l t)
   else trait_True (person_tally people person l t)) =
  (if b then trait_False t else trait_True t).
Proof.
  unfold person_tally. revert t.
  induction l as [|[[og tg] ht] l IH]; intros t Hl; [done|].
  cbn [foldl]. rewrite IH by (intros ??? ?; eapply Hl; by right).
  specialize (Hl og tg ht (list_elem_of_here _ _)).
  unfold update_person. destruct b; case_bool_decide; try done;
    [rewrite (decide_True (P := person ∈ ht)) by done
    |rewrite (decide_False (P := person ∈ ht)) by done];
    by repeat case_decide.
Qed.

Lemma accumulate_evidence people person (t : Tally A) r b :
  (person, t) ∈ accumulate people →
  dict_get people person = Some r →
  trait r = Some b →
  (if b then trait_False t else trait_True t) = lit 0.
Proof.
  intros [_ ->]%elem_of_accumulate Hget Htrait.
  rewrite person_tally_evidence; [by destruct b|].
  intros og tg ht (_ & Hpass & _)%elem_of_assignments.
  apply fails_evidence_false in Hpass. by eapply Hpass.
Qed.

(** X3: for a person whose trait is recorded, [main] never adds to the
    trait bucket that contradicts the record: that bucket is still the
    initial zero when the loops end. *)
Theorem evidence_bucket_untouched people person (t : Tally A) r b :
  (person, t) ∈ accumulate people →
  dict_get people person = Some r →
  trait r = Some b →
  (if b then trait_False t else trait_True t) = lit 0.
Proof. apply accumulate_evidence. Qed.

End Accumulation.

Lemma evidence_bucket_untouched_witness :
  let t := person_tally (A := float) test_people "James"
             (assignments test_people) zero_tally in
  ("James", t) ∈ accumulate test_people ∧ trait_False t = lit 0.
Proof.
  intros t.
  assert (("James", t) ∈ accumulate test_people) as Hin.
  { rewrite accumulate_person_tally. right. left. }
  split; [exact Hin|].
  exact (evidence_bucket_untouched (A := float) test_people "James" t
           {| name := "James"; mother := None; father := None;
              trait := Some true |} true Hin eq_refl eq_refl).
Defined.

(** ** More on [joint_probability] and [normalize] *)

Section Rows.
Context {A : Type} `{Number A}.
Implicit Types (one_gene two_genes have_trait : gset string).

Lemma individual_probability_both_parents one_gene two_genes have_trait
    person (r r' : Person) :
  both_parents r = both_parents r' →
  individual_probability (A := A) one_gene two_genes have_trait person r =
  individual_probability one_gene two_genes have_trait person r'.
Proof.
  unfold both_parents, individual_probability, gene_branch.
  destruct (father r) as [f|], (mother r) as [m|],
    (father r') as [f'|], (mother r') as [m'|]; intros Heq; by simplify_eq.
Qed.

(** X8: [joint_probability] reads of each row its key and, when both are
    recorded, its parents: a row with a single parent counts as a row
    without parents, and the recorded name and trait play no part. *)
Theorem joint_probability_reads_parents one_gene two_genes have_trait
    (people people' : dict Person) :
  Forall2 (λ e e', e.1 = e'.1 ∧ both_parents e.2 = both_parents e'.2)
          people people' →
  joint_probability (A := A) one_gene two_genes have_trait people =
  joint_probability one_gene two_genes have_trait people'.
Proof.
  unfold joint_probability. generalize (lit 1 : A).
  intros acc Hrows. revert acc.
  induction Hrows as [|[k r] [k' r'] people people' [Hk Hp] _ IH]; intros acc;
    [done|].
  cbn [foldl fst snd] in *. subst k'.
  by rewrite (individual_probability_both_parents _ _ _ _ r r'), IH.
Qed.

(** X9: [normalize] stops at the first person with a zero sum and leaves
    the mapping half done: the persons before are normalized, the persons
    after are as they were, and the person itself is untouched when the
    gene sum is zero, and has only the gene tallies divided when the trait
    sum is zero. *)
Theorem normalize_stops_half_done (before after : dict (Tally A)) person t :
  Forall (λ e, is_zero (gene_norm e.2) = false ∧
               is_zero (trait_norm e.2) = false) before →
  is_zero (gene_norm t) = true ∨ is_zero (trait_norm t) = true →
  normalize (before ++ (person, t) :: after)%list =
    ((map (λ '(k, t0), (k, divided t0)) before ++
      (person, if is_zero (gene_norm t) then t else genes_divided t) :: after)%list,
     Some ZeroDivisionError).
Proof.
  intros Hbefore Hzero.
  induction Hbefore as [|[k t0] before [Hg Ht] _ IH].
  - cbn [app map normalize]. unfold normalize_person.
    destruct (is_zero (gene_norm t)) eqn:Hgz; [done|].
    destruct Hzero as [?|Htz]; [done|]. cbn -[gene_norm].
    change (trait_norm _) with (trait_norm t). by rewrite Htz.
  - cbn [app map normalize]. cbn [snd] in Hg, Ht.
    by rewrite normalize_person_returns, IH by done.
Qed.

End Rows.

Lemma joint_probability_reads_parents_witness :
  let single := [("Ann", {| name := "Ann"; mother := Some "Eve";
                            father := None; trait := Some true |})] in
  let founder := [("Ann", {| name := "x"; mother := None; father := None;
                             trait := None |})] in
  joint_probability (A := float) {["Ann"]} ∅ ∅ single =
  joint_probability {["Ann"]} ∅ ∅ founder.
Proof.
  intros single founder.
  apply (joint_probability_reads_parents (A := float)).
  repeat constructor.
Defined.

Lemma normalize_stops_half_done_witness :
  let ok := {| gene_0 := 1; gene_1 := 1; gene_2 := 2;
               trait_True := 1; trait_False := 3 |}%Q in
  let bad := {| gene_0 := 1; gene_1 := 1; gene_2 := 2;
                trait_True := 0; trait_False := 0 |}%Q in
  normalize [("a", ok); ("b", bad); ("c", ok)] =
    ([("a", divided ok); ("b", genes_divided bad); ("c", ok)],
     Some ZeroDivisionError).
Proof.
  intros ok bad.
  assert (Forall (λ e : string * Tally Q,
                    is_zero (gene_norm e.2) = false ∧
                    is_zero (trait_norm e.2) = false) [("a", ok)]) as Hok
    by (repeat constructor).
  assert (is_zero (gene_norm bad) = true ∨ is_zero (trait_norm bad) = true)
    as Hbad by (right; reflexivity).
  exact (normalize_stops_half_done (A := Q) [("a", ok)] [("c", ok)] "b" bad
           Hok Hbad).
Defined.

(** ** The order of [powerset] *)

Section PowersetOrder.
Context {E : Type}.
Implicit Types (s c : list E) (r : nat).

Lemma combinations_gt s r : length s < r → combinations s r = [].
Proof.
  revert r. induction s as [|x s IH]; intros [|r] Hr; simpl in *; try lia.
  - done.
  - by rewrite !IH by lia.
Qed.

Lemma combinations_all s : combinations s (length s) = [s].
Proof.
  induction s as [|x s IH]; [done|].
  cbn [length combinations]. by rewrite IH, combinations_gt by lia.
Qed.

Lemma chain_combinations_from (s : list E) (a k : nat) (c : list E) :
  c ∈ concat (map (combinations s) (seq a k)) → (a ≤ length c)%nat.
Proof.
  intros (r & Hr & Hc)%elem_of_concat_map.
  apply elem_of_combinations in Hc as [_ <-].
  apply elem_of_seq in Hr. lia.
Qed.

Lemma chain_combinations_sorted (s : list E) (a k : nat) :
  StronglySorted le (length <$> concat (map (combinations s) (seq a k))).
Proof.
  revert a. induction k as [|k IH]; intros a; [constructor|].
  cbn [seq map concat]. rewrite fmap_app. apply StronglySorted_app_2.
  - intros n1 n2 (c1 & -> & H1)%list_elem_of_fmap (c2 & -> & H2)%list_elem_of_fmap.
    apply elem_of_combinations in H1 as [_ ->].
    apply chain_combinations_from in H2. lia.
  - assert (∀ c, c ∈ combinations s a → length c = a) as Hcs
      by (intros c Hc; by apply elem_of_combinations in Hc as [_ ?]).
    revert Hcs. generalize (combinations s a).
    intros cs Hcs. induction cs as [|c cs IHcs]; [constructor|].
    cbn [fmap list_fmap]. constructor.
    + apply IHcs. intros c' ?. apply Hcs. by right.
    + apply Forall_forall. intros n (c' & -> & Hc')%list_elem_of_fmap.
      rewrite (Hcs c) by (by left). rewrite (Hcs c') by (by right). done.
  - apply IH.
Qed.

End PowersetOrder.

Lemma size_list_to_set_sublist (S : gset string) (c : list string) :
  c `sublist_of` elements S → size (list_to_set (C := gset string) c) = length c.
Proof.
  intros Hc. apply size_list_to_set.
  apply (sublist_NoDup c (elements S)); [apply NoDup_elements|done].
Qed.

(** X12: [powerset] lists the subsets by size, smallest first: the sizes
    along the list never decrease, the first subset is the empty set and
    the last one is the whole set. *)
Theorem powerset_by_size (S : gset string) :
  StronglySorted le (size <$> powerset S) ∧
  head (powerset S) = Some ∅ ∧
  last (powerset S) = Some S.
Proof.
  unfold powerset, powerset_list. split_and!.
  - assert (size <$> map list_to_set (chain_combinations (elements S)) =
            length <$> chain_combinations (elements S)) as ->.
    { rewrite <-list_fmap_compose. apply list_fmap_ext. intros i c Hc.
      apply (size_list_to_set_sublist S), elem_of_chain_combinations.
      by eapply list_elem_of_lookup_2. }
    apply chain_combinations_sorted.
  - unfold chain_combinations. rewrite Nat.add_1_r. by destruct (elements S).
  - unfold chain_combinations. rewrite Nat.add_1_r, seq_S, Nat.add_0_l.
    rewrite map_app, concat_app. cbn [map concat]. rewrite app_nil_r.
    rewrite combinations_all, map_app. cbn [map].
    by rewrite last_snoc, list_to_set_elements_L.
Qed.

(** ** [load_data] *)

Section LoadData.
Implicit Types (rows : list Row) (row : Row) (n : string).

Lemma dict_get_set {V} (d : dict V) k v k' :
  dict_get (dict_set d k v) k' =
  if decide (k = k') then Some v else dict_get d k'.
Proof.
  induction d as [|[k0 v0] d IH]; cbn [dict_set dict_get].
  - done.
  - destruct (decide (k0 = k)) as [->|Hk0]; cbn [dict_get].
    + by repeat case_decide.
    + rewrite IH. repeat case_decide; congruence.
Qed.

Lemma keys_dict_set {V} (d : dict V) k v :
  keys (dict_set d k v) =
  if decide (k ∈ keys d) then keys d else (keys d ++ [k])%list.
Proof.
  unfold keys. induction d as [|[k0 v0] d IH]; cbn [dict_set fmap list_fmap].
  - rewrite decide_False; [done|]. by intros ?%elem_of_nil.
  - destruct (decide (k0 = k)) as [->|Hk0]; cbn [fmap list_fmap fst].
    + rewrite decide_True; [done|by left].
    + rewrite IH. destruct (decide (k ∈ d.*1)).
      * rewrite decide_True; [done|by right].
      * rewrite decide_False; [done|]. by intros [?|?]%elem_of_cons.
Qed.

Lemma load_data_snoc rows row :
  load_data (rows ++ [row]) =
  dict_set (load_data rows) (row_name row) (person_of_row row).
Proof. unfold load_data. by rewrite foldl_app. Qed.

(** X13: the registry [load_data] builds has one entry for each name that
    occurs in the rows, and no name twice. *)
Theorem load_data_keys rows :
  NoDup (keys (load_data rows)) ∧
  ∀ n, n ∈ keys (load_data rows) ↔ n ∈ row_name <$> rows.
Proof.
  induction rows as [|row rows [IHnd IH]] using rev_ind.
  - split; [apply NoDup_nil_2|]. intros n. by rewrite fmap_nil.
  - rewrite load_data_snoc, keys_dict_set, fmap_app. cbn [fmap list_fmap].
    case_decide as Hin; split.
    + done.
    + intros n. rewrite elem_of_app, list_elem_of_singleton, IH.
      split; [by left|]. intros [? | ->]; [done|by apply IH].
    + apply NoDup_app. split_and!; [done| |apply NoDup_singleton].
      by intros n ? ->%list_elem_of_singleton.
    + intros n. by rewrite !elem_of_app, !list_elem_of_singleton, IH.
Qed.

Lemma dict_get_load_data rows n :
  dict_get (load_data rows) n =
  person_of_row <$> last (filter (λ row, row_name row = n) rows).
Proof.
  induction rows as [|row rows IH] using rev_ind; [done|].
  rewrite load_data_snoc, dict_get_set, filter_app.
  case_decide as Hn.
  - rewrite filter_cons_True by done. cbn [filter list_filter].
    by rewrite last_snoc.
  - rewrite filter_cons_False by done. cbn [filter list_filter].
    by rewrite app_nil_r.
Qed.

(** X14: when a name occurs in several rows, the last of them is the one
    the registry keeps: looking a name up gives the person of the last row
    with that name, and nothing for a name that is in no row. *)
Theorem load_data_last_row_wins rows n :
  dict_get (load_data rows) n =
  person_of_row <$> last (filter (λ row, row_name row = n) rows).
Proof. apply dict_get_load_data. Qed.

(** X15: [load_data] does not check the rows.  The name of a person is the
    key it is filed under; a blank parent field becomes no parent, also
    when the other parent is given; and a trait field other than "1" or
    "0" becomes an unknown trait. *)
Theorem load_data_fields rows n r :
  dict_get (load_data rows) n = Some r →
  ∃ row, row ∈ rows ∧ row_name row = n ∧
    name r = n ∧
    (mother r = None ↔ row_mother row = "") ∧
    (father r = None ↔ row_father row = "") ∧
    (trait r = Some true ↔ row_trait row = "1") ∧
    (trait r = Some false ↔ row_trait row = "0").
Proof.
  rewrite dict_get_load_data.
  destruct (last _) as [row|] eqn:Hlast; [|done]. intros [= <-].
  apply last_Some_elem_of, list_elem_of_filter in Hlast as [Hname Hin].
  exists row. split_and!; [done..| | | |];
    unfold person_of_row, or_None, trait_of_field; cbn;
    repeat case_decide; split; congruence.
Qed.

End LoadData.

Lemma load_data_fields_witness :
  let rows := [ {| row_name := "Ann"; row_mother := "Eve"; row_father := "";
                   row_trait := "yes" |};
                {| row_name := "Ann"; row_mother := ""; row_father := "Bob";
                   row_trait := "1" |} ] in
  dict_get (load_data rows) "Ann" =
    Some {| name := "Ann"; mother := None; father := Some "Bob";
            trait := Some true |} ∧
  ∃ row, row ∈ rows ∧ row_name row = "Ann" ∧ row_mother row = "".
Proof.
  intros rows. split; [reflexivity|].
  destruct (load_data_fields rows "Ann"
              {| name := "Ann"; mother := None; father := Some "Bob";
                 trait := Some true |} eq_refl)
    as (row & Hin & Hname & _ & Hmother & _).
  exists row. split_and!; [done..|]. by apply Hmother.
Defined.

(** ** [update] on the store *)

Section UpdateFrame.
Context {A : Type} `{Number A}.

(** X16: a call of [update] writes to [probabilities] and to nothing else:
    the registry and the three sets are as before, [probabilities] has the
    same persons in the same order, and its tallies are those of the
    function [update]. *)
Theorem update_writes_probabilities_only (p : A) (σ : Store A) :
  NoDup (keys (st_probabilities σ)) →
  let σ' := (update_m p σ).2 in
  st_people σ' = st_people σ ∧
  st_one_gene σ' = st_one_gene σ ∧
  st_two_genes σ' = st_two_genes σ ∧
  st_have_trait σ' = st_have_trait σ ∧
  keys (st_probabilities σ') = keys (st_probabilities σ) ∧
  st_probabilities σ' =
    update (st_probabilities σ) (st_one_gene σ) (st_two_genes σ)
           (st_have_trait σ) p.
Proof.
  intros Hnd. rewrite update_m_run by done. cbn.
  split_and!; try done.
  unfold update, keys. rewrite <-list_fmap_compose.
  apply list_fmap_ext. by intros i [k t] _.
Qed.

End UpdateFrame.

Lemma update_writes_probabilities_only_witness :
  let σ := {| st_people := test_people; st_one_gene := {["Harry"]};
              st_two_genes := {["James"]}; st_have_trait := {["James"]};
              st_probabilities := initial_probabilities (A := Q) test_people |} in
  let σ' := (update_m 0.5%Q σ).2 in
  st_people σ' = test_people ∧
  keys (st_probabilities σ') = ["Harry"; "James"; "Lily"] ∧
  st_probabilities σ' =
    update (initial_probabilities test_people) {["Harry"]} {["James"]}
           {["James"]} 0.5%Q.
Proof.
  intros σ σ'.
  assert (NoDup (keys (st_probabilities σ))) as Hnd
    by (apply (bool_decide_unpack _); vm_compute; exact I).
  destruct (update_writes_probabilities_only (A := Q) 0.5%Q σ Hnd)
    as (Hp & _ & _ & _ & Hk & Hu).
  split_and!; [exact Hp|exact Hk|exact Hu].
Defined.

(** ** The number of assignments *)

Section Count.

Lemma list_sum_Permutation (l l' : list nat) :
  l ≡ₚ l' → list_sum l = list_sum l'.
Proof. induction 1; simpl; lia. Qed.

Lemma list_sum_map_ext {X} (f g : X → nat) (l : list X) :
  (∀ x, x ∈ l → f x = g x) → list_sum (map f l) = list_sum (map g l).
Proof.
  induction l as [|x l IH]; intros Hfg; [done|].
  simpl. rewrite (Hfg x) by (by left).
  rewrite IH; [done|]. intros ??. apply Hfg. by right.
Qed.

Lemma list_sum_map_mul {X} (f : X → nat) (k : nat) (l : list X) :
  list_sum (map (λ x, k * f x) l) = k * list_sum (map f l).
Proof. induction l as [|x l IH]; simpl; lia. Qed.

Lemma length_concat_map_const {X Y} (f : X → list Y) (l : list X) (c : nat) :
  (∀ x, x ∈ l → length (f x) = c) → length (concat (map f l)) = c * length l.
Proof.
  induction l as [|x l IH]; intros Hf; cbn [map concat length]; [lia|].
  rewrite length_app, (Hf x) by (by left).
  rewrite IH by (intros ??; apply Hf; by right). lia.
Qed.

(** Each element of a list is in a subsequence, with a second choice for
    each element that is not, or not: three ways per element. *)
Lemma sum_subsequences {E} (s : list E) :
  list_sum (map (λ c, 2 ^ (length s - length c)) (subsequences s)) =
  3 ^ length s.
Proof.
  induction s as [|x s IH]; [done|].
  cbn [subsequences length]. rewrite map_app, list_sum_app, map_map.
  cbn [length Nat.sub]. rewrite IH.
  rewrite (list_sum_map_ext _ (λ c, 2 * 2 ^ (length s - length c))).
  - rewrite list_sum_map_mul, IH, Nat.pow_succ_r'. lia.
  - intros c Hc%elem_of_subsequences%sublist_length.
    rewrite <-Nat.pow_succ_r'. f_equal. lia.
Qed.

Lemma gene_pairs_count (N have_trait : gset string) :
  length (concat (map (λ one_gene,
            map (λ two_genes, (one_gene, two_genes, have_trait))
                (powerset (N ∖ one_gene)))
            (powerset N))) = 3 ^ size N.
Proof.
  rewrite length_concat, map_map.
  rewrite (list_sum_map_ext _ (λ og, 2 ^ (size N - size og))).
  2: { intros og Hog%elem_of_powerset.
       by rewrite length_map, length_powerset, size_difference. }
  unfold powerset, powerset_list. rewrite map_map.
  rewrite (list_sum_map_ext _ (λ c, 2 ^ (length (elements N) - length c))).
  2: { intros c Hc%elem_of_chain_combinations.
       by rewrite (size_list_to_set_sublist N). }
  rewrite (list_sum_Permutation _
             (map (λ c, 2 ^ (length (elements N) - length c))
                  (subsequences (elements N)))).
  - apply sum_subsequences.
  - apply Permutation_map, NoDup_Permutation.
    + apply NoDup_chain_combinations, NoDup_elements.
    + apply NoDup_subsequences, NoDup_elements.
    + intros c. by rewrite elem_of_chain_combinations, elem_of_subsequences.
Qed.

(** X18: [main] calls [joint_probability] and [update] 3^n times for each
    trait subset that passes the evidence check, n being the number of
    persons of the registry. *)
Theorem assignments_count (people : dict Person) :
  length (assignments people) =
  3 ^ size (names people) *
  length (filter (λ have_trait, fails_evidence people have_trait = false)
                 (powerset (names people))).
Proof.
  unfold assignments. apply length_concat_map_const.
  intros have_trait _. apply gene_pairs_count.
Qed.

End Count.

(** ** Quotients in binary64 *)

Section Quotients.
Local Open Scope Z_scope.

Lemma positive_finite_spec (x : float) :
  positive_finite x = true -> exists m e, Prim2SF x = S754_finite false m e.
Proof.
  unfold positive_finite. rewrite !ltb_spec.
  change (Prim2SF 0) with (S754_zero false).
  change (Prim2SF infinity) with (S754_infinity false).
  intros [H0 Hinf]%andb_prop.
  destruct (Prim2SF x) as [s|s| |s m e]; try discriminate.
  - by destruct s.
  - destruct s; [discriminate|]. by exists m, e.
Qed.

Lemma SFdiv_self (m : positive) (e : Z) :
  SF64div (S754_finite false m e) (S754_finite false m e) = sf_one.
Proof.
  unfold SF64div, SFdiv, SFdiv_core_binary. cbn [xorb].
  rewrite Z.sub_diag, Z.sub_diag.
  change (Z.min (fexp prec emax 0) 0) with (-53).
  change (0 - -53) with 53.
  cbv beta iota zeta.
  rewrite Z.shiftl_mul_pow2 by lia.
  pose proof (Z.div_eucl_eq (Zpos m * 2 ^ 53) (Zpos m) ltac:(lia)) as Heq.
  pose proof (Z.mod_pos_bound (Zpos m * 2 ^ 53) (Zpos m) ltac:(lia)) as Hmod.
  unfold Z.modulo in Hmod.
  destruct (Z.div_eucl (Zpos m * 2 ^ 53) (Zpos m)) as [q r].
  assert (r = 0 /\ q = 2 ^ 53) as [-> ->].
  { assert (Zpos m * (2 ^ 53 - q) = r) as Hr by lia.
    assert (2 ^ 53 - q = 0) by nia. split; nia. }
  unfold new_location, new_location_even, new_location_odd.
  destruct (Z.even (Zpos m)); vm_compute; reflexivity.
Qed.

Lemma float_div_self (x : float) :
  positive_finite x = true -> (x / x)%float = 1%float.
Proof.
  intros (m & e & Hx)%positive_finite_spec.
  apply Prim2SF_inj. rewrite div_spec, Hx. apply SFdiv_self.
Qed.

Lemma float_zero_div (x : float) :
  positive_finite x = true -> (0 / x)%float = 0%float.
Proof.
  intros (m & e & Hx)%positive_finite_spec.
  apply Prim2SF_inj. rewrite div_spec, Hx. reflexivity.
Qed.

Lemma float_add_zero_r (x : float) :
  positive_finite x = true -> (x + 0)%float = x.
Proof.
  intros (m & e & Hx)%positive_finite_spec.
  apply Prim2SF_inj. rewrite add_spec, Hx. reflexivity.
Qed.

Lemma float_add_zero_l (x : float) :
  positive_finite x = true -> (0 + x)%float = x.
Proof.
  intros (m & e & Hx)%positive_finite_spec.
  apply Prim2SF_inj. rewrite add_spec, Hx. reflexivity.
Qed.

End Quotients.

(** ** The binary64 run *)

(** X4: in binary64 the product of [joint_probability] underflows: on a
    registry of 150 persons without parents, all assigned two copies and
    the trait, each factor is [1 * 0.01 * 0.65] and the value returned is
    zero. *)
Theorem joint_probability_underflows :
  let people := crowd 150 in
  NoDup (keys people) ∧
  (∀ person, individual_probability (A := float) ∅ (names people) (names people)
               person (founder person)
             = if decide (person ∈ names people)
               then nmul (nmul (lit 1) (lit 0.01)) (lit 0.65)
               else nmul (nmul (lit 1) (lit 0.96)) (lit 0.99)) ∧
  joint_probability (A := float) ∅ (names people) (names people) people
    = PrimFloat.zero.
Proof.
  intros people. split_and!.
  - apply (bool_decide_unpack _). vm_compute. exact I.
  - intros person. unfold individual_probability, gene_branch.
    cbn [father mother founder]. case_decide.
    + by rewrite bool_decide_eq_true_2 by done.
    + rewrite decide_False by apply not_elem_of_empty.
      by rewrite bool_decide_eq_false_2 by done.
  - vm_compute. reflexivity.
Qed.

(** X6: on the registry of the test, the binary64 run of [main] returns
    without an exception and keeps the three persons in order; every
    tally of the result is between 0 and 1, the gene tallies and the trait
    tallies of each person sum to 1 within 1e-9, and the persons with a
    recorded trait get that trait with 1 and the other value with 0. *)
Theorem main_on_test_registry :
  let result := main (A := float) test_people in
  result.2 = None ∧
  keys result.1 = ["Harry"; "James"; "Lily"] ∧
  Forall (λ e, float_unit (gene_0 e.2) && float_unit (gene_1 e.2) &&
               float_unit (gene_2 e.2) && float_unit (trait_True e.2) &&
               float_unit (trait_False e.2) = true) result.1 ∧
  Forall (λ e, near_one (gene_norm e.2) && near_one (trait_norm e.2) = true)
         result.1 ∧
  (∃ t, result.1 !! 1%nat = Some ("James", t) ∧
        trait_True t = lit 1 ∧ trait_False t = lit 0) ∧
  (∃ t, result.1 !! 2%nat = Some ("Lily", t) ∧
        trait_True t = lit 0 ∧ trait_False t = lit 1).
Proof.
  intros result. split_and!.
  - vm_compute. reflexivity.
  - vm_compute. reflexivity.
  - apply Forall_forall. intros e He.
    let l := eval vm_compute in result.1 in change (e ∈ l) in He.
    repeat (apply elem_of_cons in He as [->|He]);
      [vm_compute; reflexivity..|by apply elem_of_nil in He].
  - apply Forall_forall. intros e He.
    let l := eval vm_compute in result.1 in change (e ∈ l) in He.
    repeat (apply elem_of_cons in He as [->|He]);
      [vm_compute; reflexivity..|by apply elem_of_nil in He].
  - eexists. split; [vm_compute; reflexivity|]. split; vm_compute; reflexivity.
  - eexists. split; [vm_compute; reflexivity|]. split; vm_compute; reflexivity.
Qed.

Section Returned.
Context {A : Type} `{Number A}.

(** When [normalize] ends without an exception, every entry is the old one
    [divided]. *)
Lemma normalize_None (probabilities : dict (Tally A)) :
  (normalize probabilities).2 = None →
  (normalize probabilities).1 =
    map (λ '(person, t), (person, divided t)) probabilities.
Proof.
  induction probabilities as [|[person t] probabilities IH]; [done|].
  cbn [normalize map]. unfold normalize_person.
  destruct (is_zero (gene_norm t)) eqn:Hg; [done|]. cbn -[gene_norm normalize].
  change (trait_norm _) with (trait_norm t).
  destruct (is_zero (trait_norm t)) eqn:Ht; [done|].
  destruct (normalize probabilities) as [rest e]. cbn [fst snd] in *.
  intros ->. by rewrite IH.
Qed.

End Returned.

(** X7: in binary64, when [main] returns and the trait bucket of a person
    with a recorded trait is positive and finite after the loops, the
    result gives the recorded value of the trait exactly 1 and the other
    value exactly 0. *)
Theorem main_repeats_evidence (people : dict Person) person r b
    (t : Tally float) :
  dict_get people person = Some r →
  trait r = Some b →
  (person, t) ∈ accumulate people →
  (main people).2 = None →
  positive_finite (if b then trait_True t else trait_False t) = true →
  (person, divided t) ∈ (main people).1 ∧
  trait_True (divided t) = (if b then 1 else 0)%float ∧
  trait_False (divided t) = (if b then 0 else 1)%float.
Proof.
  intros Hget Htrait Hin Hret Hx. split.
  - unfold main in *. rewrite normalize_None by done.
    apply list_elem_of_fmap. by exists (person, t).
  - pose proof (accumulate_evidence people person t r b Hin Hget Htrait) as H0.
    unfold divided, trait_norm. cbn [trait_True trait_False].
    change (lit 0 : float) with 0%float in H0.
    destruct b; rewrite H0;
      cbn [ndiv nadd float_Number];
      rewrite ?float_add_zero_r, ?float_add_zero_l by done;
      by rewrite float_div_self, float_zero_div by done.
Qed.

Lemma main_repeats_evidence_witness :
  let t := person_tally (A := float) test_people "James"
             (assignments test_people) zero_tally in
  ("James", divided t) ∈ (main test_people).1 ∧
  trait_True (divided t) = 1%float ∧ trait_False (divided t) = 0%float.
Proof.
  intros t.
  assert (("James", t) ∈ accumulate test_people) as Hin.
  { rewrite accumulate_person_tally. right. left. }
  assert ((main (A := float) test_people).2 = None) as Hret
    by (vm_compute; reflexivity).
  assert (positive_finite (trait_True t) = true) as Hx
    by (vm_compute; reflexivity).
  exact (main_repeats_evidence test_people "James"
           {| name := "James"; mother := None; father := None;
              trait := Some true |} true t eq_refl eq_refl Hin Hret Hx).
Defined.
